(** * circuitmcp: the circuit model, the registry's persistence and the
      netlist translation, embedded from [circuitmcp/circuit.py] and
      [circuitmcp/manager.py].

    Conventions of the embedding.
    - Python [str] is [string]; identifiers are taken to be ASCII text, on
      which [str.upper] and [str.lower] act letter by letter.
    - Python [int] is [Z]; JSON numbers (component values, parameters) are
      rationals [Q], kept as data: the modelled code never computes on them
      apart from the truth test of [x or d].
    - A [dict] with string keys is a [gmap string _]; a component dict is a
      record whose optional keys are [option] fields.
    - A method of [Circuit] takes the object as [self] and returns the
      object after the call together with the method's result. *)

From stdpp Require Import gmap strings list fin_maps pretty sorting.
From Stdlib Require Import Ascii QArith.

Set Default Proof Using "Type".
#[local] Set Warnings "-register-all".
#[local] Open Scope Z_scope.

(** ** Python strings *)

Module PyStr.

Definition upper_ascii (a : ascii) : ascii :=
  let n := nat_of_ascii a in
  if ((97 <=? n) && (n <=? 122))%nat then ascii_of_nat (n - 32) else a.

Definition lower_ascii (a : ascii) : ascii :=
  let n := nat_of_ascii a in
  if ((65 <=? n) && (n <=? 90))%nat then ascii_of_nat (n + 32) else a.

Fixpoint map (f : ascii → ascii) (s : string) : string :=
  match s with
  | EmptyString => EmptyString
  | String a s' => String (f a) (map f s')
  end.

(** [s.upper()] and [s.lower()] *)
Definition upper : string → string := map upper_ascii.
Definition lower : string → string := map lower_ascii.

(** [str(n)] for an [int] *)
Definition str (n : Z) : string := pretty n.

(** the truth value of a string: [bool(s)] *)
Definition truthy (s : string) : bool :=
  match s with EmptyString => false | _ => true end.

Definition is_digit (a : ascii) : bool :=
  let n := nat_of_ascii a in ((48 <=? n) && (n <=? 57))%nat.

(** the last character of [s], if any *)
Fixpoint last (s : string) : option ascii :=
  match s with
  | EmptyString => None
  | String a EmptyString => Some a
  | String _ s' => last s'
  end.

Definition ends_in_digit (s : string) : bool :=
  match last s with Some a => is_digit a | None => false end.

Fixpoint all_digits (s : string) : bool :=
  match s with
  | EmptyString => true
  | String a s' => is_digit a && all_digits s'
  end.

End PyStr.

(** ** Python values held in parameter dictionaries *)

Inductive pyval : Type :=
| PNone
| PBool (b : bool)
| PNum (q : Q)
| PStr (s : string).

Abbreviation params := (gmap string pyval).

(** [d.get(k)]: [None] for a missing key *)
Definition dict_get (d : params) (k : string) : pyval :=
  match d !! k with Some v => v | None => PNone end.

(** [d.get(k, dflt)] *)
Definition dict_get_default (d : params) (k : string) (dflt : pyval) : pyval :=
  match d !! k with Some v => v | None => dflt end.

(** [bool(v)] *)
Definition py_truthy (v : pyval) : bool :=
  match v with
  | PNone => false
  | PBool b => b
  | PNum q => negb (Qeq_bool q 0)
  | PStr s => PyStr.truthy s
  end.

(** [v == s] for a string literal [s] *)
Definition py_eq_str (v : pyval) (s : string) : bool :=
  match v with PStr s' => bool_decide (s' = s) | _ => false end.

Definition py_is_none (v : pyval) : bool :=
  match v with PNone => true | _ => false end.

(** ** Component model and circuit state ([circuit.py]) *)

(** The dict built by [add_component]: keys [name], [type], [nodes], and
    [value] / [parameters] only when the argument is not [None]. *)
Record component : Type := Component {
  comp_name : string;
  comp_type : string;
  comp_nodes : list string;
  comp_value : option Q;
  comp_parameters : option params
}.

(** A component description as callers pass it to [update_components] and
    [create_circuit]: [comp["type"]], [comp["nodes"]], [comp.get("value")],
    [comp.get("parameters")]. Any [name] key is ignored by the code. *)
Record component_spec : Type := ComponentSpec {
  spec_type : string;
  spec_nodes : list string;
  spec_value : option Q;
  spec_parameters : option params
}.

(** An entry of [history]: [{"version": ..., "components": deepcopy(...)}] *)
Record snapshot : Type := Snapshot {
  snap_version : Z;
  snap_components : list component
}.

Record Circuit : Type := MkCircuit {
  id : Z;
  name : string;
  version : Z;
  components : list component;
  history : list snapshot;
  _next_ids : gmap string Z
}.

(** The counters a new circuit starts with. *)
Definition initial_next_ids : gmap string Z :=
  list_to_map ((λ t, (t, 1)) <$>
    ["R"; "C"; "L"; "V"; "I"; "D"; "Q"; "M"; "X"; "U"]%string).

(** [Circuit.__init__(circuit_id, name)] *)
Definition Circuit_init (circuit_id : Z) (name : option string) : Circuit :=
  {| id := circuit_id;
     name := match name with
             | Some n => if PyStr.truthy n then n
                         else "Circuit " +:+ PyStr.str circuit_id
             | None => "Circuit " +:+ PyStr.str circuit_id
             end;
     version := 1;
     components := [];
     history := [];
     _next_ids := initial_next_ids |}.

(** [Circuit._increment_version(save_components)] *)
Definition _increment_version (self : Circuit) (save_components : bool) : Circuit :=
  let history' :=
    if save_components
    then history self ++ [Snapshot (version self) (components self)]
    else history self in
  {| id := id self; name := name self;
     version := version self + 1;
     components := components self;
     history := history';
     _next_ids := _next_ids self |}.

(** [Circuit.add_component(component_type, nodes, value, parameters)] *)
Definition add_component (self : Circuit) (component_type : string)
    (nodes : list string) (value : option Q) (parameters : option params)
  : Circuit * component :=
  let component_type := PyStr.upper component_type in
  let next_ids :=
    match _next_ids self !! component_type with
    | Some _ => _next_ids self
    | None => <[component_type := 1]> (_next_ids self)
    end in
  let comp_id := next_ids !!! component_type in
  let next_ids := <[component_type := comp_id + 1]> next_ids in
  let name' := component_type +:+ PyStr.str comp_id in
  let component :=
    {| comp_name := name'; comp_type := component_type; comp_nodes := nodes;
       comp_value := value; comp_parameters := parameters |} in
  let self :=
    {| id := id self; name := name self; version := version self;
       components := components self ++ [component];
       history := history self;
       _next_ids := next_ids |} in
  (_increment_version self false, component).

(** The loop of [remove_component]: drop the first component called
    [component_name]; [None] when the loop ends without a match. *)
Fixpoint pop_first (component_name : string) (l : list component)
  : option (list component) :=
  match l with
  | [] => None
  | c :: l' =>
      if bool_decide (comp_name c = component_name) then Some l'
      else (c ::.) <$> pop_first component_name l'
  end.

(** [Circuit.remove_component(component_name)] *)
Definition remove_component (self : Circuit) (component_name : string)
  : Circuit * bool :=
  match pop_first component_name (components self) with
  | Some l =>
      let self :=
        {| id := id self; name := name self; version := version self;
           components := l; history := history self;
           _next_ids := _next_ids self |} in
      (_increment_version self false, true)
  | None => (self, false)
  end.

(** The re-adding loop of [update_components]. *)
Definition add_all (self : Circuit) (new_components : list component_spec) : Circuit :=
  foldl (λ self comp,
           fst (add_component self (spec_type comp) (spec_nodes comp)
                  (spec_value comp) (spec_parameters comp)))
        self new_components.

(** [Circuit.update_components(new_components)] *)
Definition update_components (self : Circuit) (new_components : list component_spec)
  : Circuit :=
  let self := _increment_version self true in
  let self :=
    {| id := id self; name := name self; version := version self;
       components := []; history := history self;
       _next_ids := _next_ids self |} in
  add_all self new_components.

(** The dict returned by [to_dict]. *)
Record circuit_dict : Type := CircuitDict {
  d_id : Z;
  d_name : string;
  d_version : Z;
  d_components : list component
}.

(** [Circuit.to_dict()] *)
Definition to_dict (self : Circuit) : circuit_dict :=
  {| d_id := id self; d_name := name self; d_version := version self;
     d_components := components self |}.

(** ** The registry's persistence ([manager.py]) *)

(** The data written by [_save_to_disk]:
    [{"next_id": ..., "circuits": {cid: circuit.to_dict()}}].
    [json.dump] followed by [json.load] gives the same data back, with the
    integer keys of ["circuits"] turned into decimal strings, which
    [_load_from_disk] parses back with [int]; the keys are kept as [Z]. *)
Record persisted : Type := Persisted {
  p_next_id : Z;
  p_circuits : gmap Z circuit_dict
}.

Record CircuitManager : Type := MkCircuitManager {
  _circuits : gmap Z Circuit;
  _next_id : Z
}.

(** [CircuitManager._save_to_disk()], for a configured persistence path *)
Definition _save_to_disk (cls : CircuitManager) : persisted :=
  {| p_next_id := _next_id cls;
     p_circuits := to_dict <$> _circuits cls |}.

Definition spec_of_component (comp : component) : component_spec :=
  {| spec_type := comp_type comp; spec_nodes := comp_nodes comp;
     spec_value := comp_value comp; spec_parameters := comp_parameters comp |}.

(** The body of the loop of [_load_from_disk] for one entry. *)
Definition load_circuit (cid : Z) (circuit_data : circuit_dict) : Circuit :=
  let circuit := Circuit_init cid (Some (d_name circuit_data)) in
  let circuit :=
    {| id := id circuit; name := name circuit;
       version := d_version circuit_data;
       components := components circuit; history := history circuit;
       _next_ids := _next_ids circuit |} in
  add_all circuit (spec_of_component <$> d_components circuit_data).

(** [CircuitManager._load_from_disk()], for an existing file holding [data] *)
Definition _load_from_disk (data : persisted) : CircuitManager :=
  {| _next_id := p_next_id data;
     _circuits := map_imap (λ cid circuit_data, Some (load_circuit cid circuit_data))
                    (p_circuits data) |}.

(** ** Netlist translation ([Circuit.simulate], first half) *)

(** A node handed to PySpice: [spice_circuit.gnd] or the identifier itself. *)
Inductive spice_node : Type :=
| Gnd
| Node (n : string).

(** [normalize_node(node)], the closure defined in the loop of [simulate] *)
Definition normalize_node (node : string) : spice_node :=
  if PyStr.truthy node
     && bool_decide (PyStr.lower node ∈ ["0"; "gnd"; "ground"]%string)
  then Gnd else Node node.

Inductive spice_unit : Type := u_Ω | u_F | u_H | u_V | u_Hz | u_s | u_A.

(** [x @ u]: a value tagged with a unit *)
Record quantity : Type := Quantity { q_value : pyval; q_unit : spice_unit }.
Notation "x @ u" := (Quantity x u) (at level 40, no associativity).

(** The text of a behavioural source, kept as a term: the f-strings of the
    source splice node names and parameter values into these shapes. *)
Inductive behaviour : Type :=
| BComparator (in_p in_n : spice_node) (high low : pyval)
    (* V=if(v(in_p)-v(in_n)>0, high, low) *)
| BAdc (inp : spice_node) (bits ref : pyval)
    (* V=floor(v(inp)*(2**bits-1)/ref+0.5)*ref/(2**bits-1) *)
| BDac (inp : spice_node) (ref : pyval).
    (* V=v(inp)*ref *)

(** One call on the PySpice circuit under construction. *)
Inductive instr : Type :=
| SpiceR (name : string) (n1 n2 : spice_node) (resistance : quantity)
| SpiceC (name : string) (n1 n2 : spice_node) (capacitance : quantity)
| SpiceL (name : string) (n1 n2 : spice_node) (inductance : quantity)
| SpiceV (name : string) (n1 n2 : spice_node) (dc_value : quantity)
| SinusoidalVoltageSource (name : string) (n1 n2 : spice_node)
    (amplitude frequency offset : quantity)
| PulseVoltageSource (name : string) (n1 n2 : spice_node)
    (initial_value pulsed_value delay_time rise_time fall_time
     pulse_width period : quantity)
| SpiceI (name : string) (n1 n2 : spice_node) (dc_value : quantity)
| SpiceModel (model_name : pyval) (kind : string) (args : list (string * pyval))
| SpiceD (name : string) (n1 n2 : spice_node) (model : pyval)
| SpiceQ (name : string) (n1 n2 n3 : spice_node) (model : pyval)
| SpiceVCVS (name : string) (out_p out_n in_p in_n : spice_node) (voltage_gain : pyval)
| SpiceB (name : string) (n1 n2 : spice_node) (expr : behaviour).

(** The PySpice circuit: its title and the calls made on it, in order.
    PySpice's own checks on these calls are outside the model. *)
Record netlist : Type := Netlist { title : string; instrs : list instr }.

(** The exceptions of the modelled code: the two it raises itself, and
    [Exception] for whatever the solver raises. [exn_str] is [str(e)]. *)
Inductive exn : Type :=
| ValueError (msg : string)
| IndexError (msg : string)
| Exception (msg : string).

Definition exn_str (e : exn) : string :=
  match e with ValueError m => m | IndexError m => m | Exception m => m end.

(** [l[i]] *)
Definition index {A} (l : list A) (i : nat) : exn + A :=
  match l !! i with
  | Some x => inr x
  | None => inl (IndexError "list index out of range")
  end.

(** Code that may raise: [inl e] is a raised exception. The monad
    notation [x ← m; k] of stdpp sequences such code. *)
#[global] Instance exn_ret : MRet (sum exn) := λ A x, inr x.
#[global] Instance exn_bind : MBind (sum exn) := λ A B k m,
  match m with inl e => inl e | inr a => k a end.

Definition value_of (value : option Q) : pyval :=
  match value with Some q => PNum q | None => PNone end.

(** [a or b] *)
Definition py_or (a b : pyval) : pyval := if py_truthy a then a else b.

Definition num (z : Z) : pyval := PNum (inject_Z z).
(** [m]e[-k], as in [1e-9] *)
Definition num_e_minus (m : Z) (k : nat) : pyval :=
  PNum (Qmake m (Pos.of_nat (Nat.pow 10 k))).

Section Translate.
(** [hasattr(spice_circuit, f"model_{model_name}")], answered by PySpice *)
Variable hasattr_model : list instr → pyval → bool.

(** The body of the [try] for one component: the calls it adds. *)
Definition translate_component (sofar : list instr) (comp : component)
  : exn + list instr :=
  let comp_type := comp_type comp in
  let nodes := comp_nodes comp in
  let value := value_of (comp_value comp) in
  let params := default ∅ (comp_parameters comp) in
  let spice_nodes := normalize_node <$> nodes in
  let name := comp_name comp in
  if bool_decide (comp_type = "R"%string) then
    n0 ← index spice_nodes 0; n1 ← index spice_nodes 1;
    inr [SpiceR name n0 n1 (value @ u_Ω)]
  else if bool_decide (comp_type = "C"%string) then
    n0 ← index spice_nodes 0; n1 ← index spice_nodes 1;
    inr [SpiceC name n0 n1 (value @ u_F)]
  else if bool_decide (comp_type = "L"%string) then
    n0 ← index spice_nodes 0; n1 ← index spice_nodes 1;
    inr [SpiceL name n0 n1 (value @ u_H)]
  else if bool_decide (comp_type = "V"%string) then
    match params !! "type"%string with
    | Some ty =>
        if py_eq_str ty "sine" then
          let amplitude := dict_get_default params "amplitude" (py_or value (num 1)) in
          let frequency := dict_get_default params "frequency" (num 1000) in
          let offset := dict_get_default params "offset" (num 0) in
          n0 ← index spice_nodes 0; n1 ← index spice_nodes 1;
          inr [SinusoidalVoltageSource name n0 n1
                 (amplitude @ u_V) (frequency @ u_Hz) (offset @ u_V)]
        else if py_eq_str ty "pulse" then
          let initial := dict_get_default params "initial" (num 0) in
          let pulsed := dict_get_default params "pulsed" (py_or value (num 5)) in
          let delay := dict_get_default params "delay" (num 0) in
          let rise_time := dict_get_default params "rise_time" (num_e_minus 1 9) in
          let fall_time := dict_get_default params "fall_time" (num_e_minus 1 9) in
          let pulse_width := dict_get_default params "pulse_width" (num_e_minus 1 3) in
          let period := dict_get_default params "period" (num_e_minus 2 3) in
          n0 ← index spice_nodes 0; n1 ← index spice_nodes 1;
          inr [PulseVoltageSource name n0 n1
                 (initial @ u_V) (pulsed @ u_V) (delay @ u_s) (rise_time @ u_s)
                 (fall_time @ u_s) (pulse_width @ u_s) (period @ u_s)]
        else
          n0 ← index spice_nodes 0; n1 ← index spice_nodes 1;
          inr [SpiceV name n0 n1 (value @ u_V)]
    | None =>
        n0 ← index spice_nodes 0; n1 ← index spice_nodes 1;
        inr [SpiceV name n0 n1 (value @ u_V)]
    end
  else if bool_decide (comp_type = "I"%string) then
    n0 ← index spice_nodes 0; n1 ← index spice_nodes 1;
    inr [SpiceI name n0 n1 (value @ u_A)]
  else if bool_decide (comp_type = "D"%string) then
    let model_name := dict_get_default params "model" (PStr "default_diode") in
    let decl :=
      if hasattr_model sofar model_name then []
      else [SpiceModel model_name "D"
              [("is_"%string, dict_get_default params "is" (num_e_minus 1 14));
               ("n"%string, dict_get_default params "n" (num 1));
               ("vj"%string, dict_get_default params "vj" (num 1))]] in
    n0 ← index spice_nodes 0; n1 ← index spice_nodes 1;
    inr (decl ++ [SpiceD name n0 n1 model_name])
  else if bool_decide (comp_type = "Q"%string) then
    let model_name := dict_get_default params "model" (PStr "default_npn") in
    let decl :=
      if hasattr_model sofar model_name then []
      else [SpiceModel model_name "NPN"
              [("bf"%string, dict_get_default params "bf" (num 100))]] in
    n0 ← index spice_nodes 0; n1 ← index spice_nodes 1;
    n2 ← index spice_nodes 2;
    inr (decl ++ [SpiceQ name n0 n1 n2 model_name])
  else if bool_decide (comp_type = "U"%string) then
    let uvx_type := dict_get_default params "uvx_type" (PStr "opamp") in
    if py_eq_str uvx_type "opamp" then
      let gain := dict_get_default params "gain" (num 1000000) in
      if bool_decide (3 ≤ length spice_nodes)%nat then
        let int_node1 := ("int_" +:+ name +:+ "_1")%string in
        let int_node2 := ("int_" +:+ name +:+ "_2")%string in
        n2 ← index spice_nodes 2;
        n1 ← index spice_nodes 1;
        n0 ← index spice_nodes 0;
        inr [SpiceR (name +:+ "_in_p") n2 (Node int_node1) (num 1000000000 @ u_Ω);
             SpiceR (name +:+ "_in_n") n1 (Node int_node2) (num 1000000000 @ u_Ω);
             SpiceVCVS name n0 Gnd (Node int_node1) (Node int_node2) gain]
      else inr []
    else if py_eq_str uvx_type "comparator" then
      n0 ← index spice_nodes 0;
      n2 ← index spice_nodes 2;
      n1 ← index spice_nodes 1;
      inr [SpiceB name n0 Gnd
             (BComparator n2 n1 (dict_get_default params "high" (num 5))
                                (dict_get_default params "low" (num 0)))]
    else if py_eq_str uvx_type "adc" then
      let bits := dict_get_default params "bits" (num 8) in
      let ref := dict_get_default params "reference" (num 5) in
      n0 ← index spice_nodes 0;
      n1 ← index spice_nodes 1;
      inr [SpiceB name n0 Gnd (BAdc n1 bits ref)]
    else if py_eq_str uvx_type "dac" then
      let ref := dict_get_default params "reference" (num 5) in
      n0 ← index spice_nodes 0;
      n1 ← index spice_nodes 1;
      inr [SpiceB name n0 Gnd (BDac n1 ref)]
    else inr []
  else inr [].

(** The component loop of [simulate]: an exception raised for a
    component is re-raised as [ValueError] naming it. *)
Fixpoint translate_components (sofar : list instr) (comps : list component)
  : exn + list instr :=
  match comps with
  | [] => inr sofar
  | comp :: comps' =>
      match translate_component sofar comp with
      | inl e =>
          inl (ValueError ("Error adding component " +:+ comp_name comp
                           +:+ ": " +:+ exn_str e))
      | inr added => translate_components (sofar ++ added) comps'
      end
  end.

Definition build_netlist (self : Circuit) : exn + netlist :=
  l ← translate_components [] (components self);
  inr (Netlist (name self) l).
End Translate.

(** ** Analysis dispatch and result normalisation ([Circuit.simulate],
       second half) *)

(** A value of a solver waveform, a Python [float] or [complex], with its
    [.real] and [.imag] parts. *)
Record sample : Type := Sample { real : Q; imag : Q }.

(** The floats stored in a result. Floating-point functions of the
    Python library are not evaluated; a result names the call made. *)
Inductive pyfloat : Type :=
| Float (v : sample)                 (* float(v) *)
| FloatAbs (v : sample)              (* float(abs(v)) *)
| FloatDegreesAtan2 (y x : Q).       (* float(math.degrees(math.atan2(y, x))) *)

(** The nested dictionaries and lists of a result. *)
Inductive result : Type :=
| RFloat (x : pyfloat)
| RPy (v : pyval)
| RList (l : list result)
| RDict (d : gmap string result).

(** What [simulator.operating_point()] returns: node and branch values,
    each with its [str()] name. *)
Record op_analysis : Type := OpAnalysis {
  op_nodes : list (string * sample);
  op_branches : list (string * sample)
}.

(** What the swept analyses return: the sweep axis ([analysis[source]],
    [analysis.frequency], [analysis.time]) and the [nodes] and [branches]
    dictionaries of waveforms. *)
Record sweep_analysis : Type := SweepAnalysis {
  axis : list sample;
  nodes : gmap string (list sample);
  branches : gmap string (list sample)
}.

(** The analysis methods of the simulator, with their arguments. *)
Inductive directive : Type :=
| operating_point
| dc_analysis (source start stop step : pyval)
| ac_analysis (start_frequency stop_frequency : quantity)
    (number_of_points variation : pyval)
| transient_analysis (step_time end_time : quantity).

(** The external solver: an analysis returns its waveforms or raises an
    exception, of which only the message is used. *)
Record Solver : Type := MkSolver {
  hasattr_model : list instr → pyval → bool;
  run_operating_point : netlist → string + op_analysis;
  run_sweep : netlist → directive → string + sweep_analysis
}.

(** What [simulate] does to the outside: the simulator it creates and
    the analyses it runs. *)
Inductive event : Type :=
| NewInstance (spice_circuit : netlist)
| RunAnalysis (d : directive).

(** The state [simulate] runs in: the circuit object and the calls made
    on the solver so far. *)
Record world : Type := World { self_of : Circuit; trace : list event }.

(** A method body: it may read and write the state and may raise; a
    raised exception keeps the writes made before it. *)
Definition Sim (A : Type) : Type := world → world * (exn + A).

#[global] Instance sim_ret : MRet Sim := λ A x w, (w, inr x).
#[global] Instance sim_bind : MBind Sim := λ A B k m w,
  match m w with
  | (w', inl e) => (w', inl e)
  | (w', inr a) => k a w'
  end.

Definition raise {A} (e : exn) : Sim A := λ w, (w, inl e).
Definition get_self : Sim Circuit := λ w, (w, inr (self_of w)).
Definition emit (ev : event) : Sim () :=
  λ w, (World (self_of w) (trace w ++ [ev]), inr ()).
Definition lift {A} (m : exn + A) : Sim A := λ w, (w, m).

(** [try: body except Exception as e: raise handler(e)] *)
Definition reraise {A} (handler : exn → exn) (body : Sim A) : Sim A :=
  λ w, match body w with
       | (w', inl e) => (w', inl (handler e))
       | r => r
       end.

Definition not_ground (node_name : string) : bool :=
  bool_decide (node_name ∉ ["0"; "gnd"]%string).

(** [for k, v in items: if keep(k): out[k] = f(v)], from an empty [out] *)
Definition collect {A} (keep : string → bool) (f : A → result)
    (items : list (string * A)) : gmap string result :=
  foldl (λ out kv, if keep kv.1 then <[kv.1 := f kv.2]> out else out) ∅ items.

Definition floats (l : list sample) : result := RList ((λ v, RFloat (Float v)) <$> l).

(** The entry of one waveform in an [ac] result. *)
Definition ac_entry (values : list sample) : result :=
  RDict (<["phase"%string :=
             RList ((λ v, RFloat (FloatDegreesAtan2 (imag v) (real v))) <$> values)]>
        (<["magnitude"%string :=
             RList ((λ v, RFloat (FloatAbs v)) <$> values)]> ∅)).

Section Simulate.
Variable solver : Solver.

Definition call_operating_point (simulator : netlist) : Sim op_analysis :=
  _ ← emit (RunAnalysis operating_point);
  match run_operating_point solver simulator with
  | inl msg => raise (Exception msg)
  | inr op => mret op
  end.

Definition call_sweep (simulator : netlist) (d : directive) : Sim sweep_analysis :=
  _ ← emit (RunAnalysis d);
  match run_sweep solver simulator d with
  | inl msg => raise (Exception msg)
  | inr analysis => mret analysis
  end.

(** The [try] block of [simulate]: one branch per analysis kind. *)
Definition run_analysis (simulator : netlist) (analysis : string)
    (sim_params : params) : Sim (gmap string result) :=
  if bool_decide (analysis = "operating_point"%string) then
    op ← call_operating_point simulator;
    mret (<["branches"%string :=
              RDict (collect (λ _, true) (λ v, RFloat (Float v)) (op_branches op))]>
          (<["nodes"%string :=
              RDict (collect not_ground (λ v, RFloat (Float v)) (op_nodes op))]> ∅))
  else if bool_decide (analysis = "dc"%string) then
    let source := dict_get sim_params "source" in
    let start := dict_get sim_params "start" in
    let stop := dict_get sim_params "stop" in
    let step := dict_get sim_params "step" in
    if negb (py_truthy source && negb (py_is_none start)
             && negb (py_is_none stop) && negb (py_is_none step))
    then raise (ValueError
           "DC analysis requires 'source', 'start', 'stop', 'step' parameters")
    else
      analysis ← call_sweep simulator (dc_analysis source start stop step);
      mret (<["branches"%string :=
                RDict (collect (λ _, true) floats (map_to_list (branches analysis)))]>
            (<["nodes"%string :=
                RDict (collect not_ground floats (map_to_list (nodes analysis)))]>
            (<["sweep"%string :=
                RDict (<["values"%string := floats (axis analysis)]>
                      (<["source"%string := RPy source]> ∅))]> ∅)))
  else if bool_decide (analysis = "ac"%string) then
    let start_freq := dict_get_default sim_params "start_frequency" (num 1) in
    let stop_freq := dict_get_default sim_params "stop_frequency" (num 1000000) in
    let num_points := dict_get_default sim_params "points" (num 10) in
    let variation := dict_get_default sim_params "variation" (PStr "dec") in
    analysis ← call_sweep simulator
                 (ac_analysis (start_freq @ u_Hz) (stop_freq @ u_Hz)
                    num_points variation);
    mret (<["branches"%string :=
              RDict (collect (λ _, true) ac_entry (map_to_list (branches analysis)))]>
          (<["nodes"%string :=
              RDict (collect not_ground ac_entry (map_to_list (nodes analysis)))]>
          (<["frequency"%string :=
              RDict (<["values"%string := floats (axis analysis)]> ∅)]> ∅)))
  else if bool_decide (analysis = "transient"%string) then
    let step_time := dict_get sim_params "step_time" in
    let end_time := dict_get sim_params "end_time" in
    if py_is_none step_time || py_is_none end_time
    then raise (ValueError
           "Transient analysis requires 'step_time' and 'end_time' parameters")
    else
      analysis ← call_sweep simulator
                   (transient_analysis (step_time @ u_s) (end_time @ u_s));
      mret (<["branches"%string :=
                RDict (collect (λ _, true) floats (map_to_list (branches analysis)))]>
            (<["nodes"%string :=
                RDict (collect not_ground floats (map_to_list (nodes analysis)))]>
            (<["time"%string := floats (axis analysis)]> ∅)))
  else raise (ValueError ("Unsupported analysis type: " +:+ analysis)).

(** [Circuit.simulate(analysis, sim_params)] *)
Definition simulate (analysis : string) (sim_params : option params)
  : Sim (gmap string result) :=
  let sim_params := default ∅ sim_params in
  self ← get_self;
  spice_circuit ← lift (build_netlist (hasattr_model solver) self);
  _ ← emit (NewInstance spice_circuit);
  let analysis := PyStr.lower analysis in
  reraise (λ e, ValueError ("Simulation failed: " +:+ exn_str e))
    (run_analysis spice_circuit analysis sim_params).
End Simulate.

(** ** Sequences of calls on one circuit *)

Inductive operation : Type :=
| Add (component_type : string) (nodes : list string) (value : option Q)
    (parameters : option params)
| Remove (component_name : string)
| ReplaceAll (new_components : list component_spec).

(** What a call returned. *)
Inductive outcome : Type :=
| Added (c : component)
| Removed (component_name : string) (found : bool)
| Replaced.

Definition step (self : Circuit) (op : operation) : Circuit * outcome :=
  match op with
  | Add t nodes value parameters =>
      let r := add_component self t nodes value parameters in (r.1, Added r.2)
  | Remove n =>
      let r := remove_component self n in (r.1, Removed n r.2)
  | ReplaceAll l => (update_components self l, Replaced)
  end.

Fixpoint run (self : Circuit) (ops : list operation) : Circuit * list outcome :=
  match ops with
  | [] => (self, [])
  | op :: ops' =>
      let r := step self op in
      let r' := run r.1 ops' in
      (r'.1, r.2 :: r'.2)
  end.

(** [N] calls of [add_component] with the same type, one per element of
    [args] (the nodes, value and parameters of the call). *)
Definition add_many (self : Circuit) (component_type : string)
    (args : list (list string * option Q * option params)) : Circuit :=
  foldl (λ self a, (add_component self component_type a.1.1 a.1.2 a.2).1) self args.

(** The next sequence number of a type: the counter, or 1 when the type
    has none yet. *)
Definition next_id (self : Circuit) (component_type : string) : Z :=
  default 1 (_next_ids self !! component_type).

(** An [Add] or [Remove] whose type, if any, does not end in a digit. *)
Definition digit_free (op : operation) : bool :=
  match op with
  | Add t _ _ _ => negb (PyStr.ends_in_digit (PyStr.upper t))
  | Remove _ => true
  | ReplaceAll _ => false
  end.

(** A name the counters of [self] have already given out, for a type
    that does not end in a digit. *)
Definition issued (self : Circuit) (n : string) : Prop :=
  ∃ U k, n = U +:+ PyStr.str k ∧ PyStr.ends_in_digit U = false
         ∧ 1 ≤ k < next_id self U.

(** Every counter is at least 1 and every component carries an issued
    name. *)
Definition well_numbered (self : Circuit) : Prop :=
  (∀ U, 1 ≤ next_id self U)
  ∧ ∀ c, c ∈ components self → issued self (comp_name c).


(** A method body that leaves the circuit object as it found it. *)
Definition read_only {A} (m : Sim A) : Prop :=
  ∀ w, self_of (m w).1 = self_of w.


(** The circuit the test suite starts from. *)
Definition test_circuit : Circuit := Circuit_init 1 (Some "Test Circuit"%string).

(** A solver that answers every swept analysis with one node [out]
    holding the single value [1+1j], and one branch. *)
Definition echo_solver : Solver :=
  {| hasattr_model := λ _ _, false;
     run_operating_point := λ _, inr (OpAnalysis [] []);
     run_sweep := λ _ _,
       inr (SweepAnalysis [Sample 1 0]
              {[ "out"%string := [Sample 1 1] ]}
              {[ "v1"%string := [Sample 1 0] ]}) |}.

(** ** The rest of the registry ([manager.py]) *)

(** The class state of [CircuitManager] together with its persistence
    path and the file at that path ([None]: there is no such file). *)
Record registry : Type := Registry {
  cls : CircuitManager;
  _persistence_path : option string;
  file : option persisted
}.

(** The class as it is defined: no circuit, next id 1, no path. *)
Definition registry_init : registry :=
  Registry (MkCircuitManager ∅ 1) None None.

(** The truth value of [cls._persistence_path] *)
Definition path_set (r : registry) : bool :=
  match _persistence_path r with Some p => PyStr.truthy p | None => false end.

(** [if cls._persistence_path: cls._save_to_disk()]; creating the
    directory of the path and writing the file are taken to succeed. *)
Definition persist (r : registry) : registry :=
  if path_set r
  then Registry (cls r) (_persistence_path r) (Some (_save_to_disk (cls r)))
  else r.


(** [CircuitManager.create_circuit(name, components)] *)
Definition create_circuit (r : registry) (name : option string)
    (components : option (list component_spec)) : registry * Circuit :=
  let cid := _next_id (cls r) in
  let circuit := Circuit_init cid name in
  let circuit :=
    match components with
    | Some (comp :: comps) => add_all circuit (comp :: comps)
    | _ => circuit
    end in
  let cls' := {| _circuits := <[cid := circuit]> (_circuits (cls r));
                 _next_id := cid + 1 |} in
  (persist (Registry cls' (_persistence_path r) (file r)), circuit).

(** [CircuitManager.get_circuit(cid)] *)
Definition get_circuit (r : registry) (cid : Z) : option Circuit :=
  _circuits (cls r) !! cid.

(** [circuit.name = name] *)
Definition set_name (circuit : Circuit) (name' : string) : Circuit :=
  {| id := id circuit; name := name'; version := version circuit;
     components := components circuit; history := history circuit;
     _next_ids := _next_ids circuit |}.

(** [CircuitManager.update_circuit(cid, name, components)]; the circuit
    object held by the registry is the one that is changed. *)
Definition update_circuit (r : registry) (cid : Z) (name : option string)
    (components : option (list component_spec)) : registry * option Circuit :=
  match get_circuit r cid with
  | None => (r, None)
  | Some circuit =>
      let circuit :=
        match name with Some n => set_name circuit n | None => circuit end in
      let circuit :=
        match components with
        | Some l => update_components circuit l
        | None => circuit
        end in
      let cls' := {| _circuits := <[cid := circuit]> (_circuits (cls r));
                     _next_id := _next_id (cls r) |} in
      (persist (Registry cls' (_persistence_path r) (file r)), Some circuit)
  end.

(** [CircuitManager.delete_circuit(cid)] *)
Definition delete_circuit (r : registry) (cid : Z) : registry * bool :=
  match _circuits (cls r) !! cid with
  | Some _ =>
      let cls' := {| _circuits := delete cid (_circuits (cls r));
                     _next_id := _next_id (cls r) |} in
      (persist (Registry cls' (_persistence_path r) (file r)), true)
  | None => (r, false)
  end.

(** Calls on the registry, one after the other. *)
Inductive registry_op : Type :=
| RCreate (name : option string) (components : option (list component_spec))
| RUpdate (cid : Z) (name : option string)
    (components : option (list component_spec))
| RDelete (cid : Z).

Definition registry_step (r : registry) (op : registry_op) : registry :=
  match op with
  | RCreate name components => (create_circuit r name components).1
  | RUpdate cid name components => (update_circuit r cid name components).1
  | RDelete cid => (delete_circuit r cid).1
  end.

Definition registry_run (r : registry) (ops : list registry_op) : registry :=
  foldl registry_step r ops.

(** ** Reading versions ([api.py], [mcp_server.py]) *)

(** The search of [get_circuit] through [circuit.history]: the first
    record of the wanted version. *)
Fixpoint find_record (v : Z) (history : list snapshot) : option snapshot :=
  match history with
  | [] => None
  | record :: history' =>
      if bool_decide (snap_version record = v) then Some record
      else find_record v history'
  end.

(** The body of the route [GET /circuits/{id}?version=] once the circuit
    is found; [None] is the 404 answer. *)
Definition get_circuit_version (circuit : Circuit) (version' : option Z)
  : option circuit_dict :=
  match version' with
  | None => Some (to_dict circuit)
  | Some v =>
      if bool_decide (v = version circuit) then Some (to_dict circuit)
      else match find_record v (history circuit) with
           | Some record =>
               Some {| d_id := id circuit; d_name := name circuit;
                       d_version := snap_version record;
                       d_components := snap_components record |}
           | None => None
           end
  end.

(** The list built by [list_circuit_versions] and [get_circuit_versions] *)
Definition list_circuit_versions (circuit : Circuit) : list Z :=
  (snap_version <$> history circuit) ++ [version circuit].

(** The body of [add_uvx_component] once the circuit is found:
    [parameters], when given and not empty, is merged over
    [{"uvx_type": uvx_type}] by [dict.update]. *)
Definition add_uvx_component (circuit : Circuit) (nodes : list string)
    (uvx_type : string) (parameters : option params) : Circuit * component :=
  let uvx_params : params := {[ "uvx_type"%string := PStr uvx_type ]} in
  let uvx_params :=
    match parameters with
    | Some ps => if bool_decide (ps = ∅) then uvx_params else ps ∪ uvx_params
    | None => uvx_params
    end in
  add_component circuit "U" nodes None (Some uvx_params).

(** ** Schematic drawing ([Circuit.draw_schematic]) *)

(** The element classes of the drawing library that [component_map]
    names. *)
Inductive element_class : Type :=
| Resistor | Capacitor | Inductor | SourceV | SourceI | Diode | BjtNpn.

(** [component_map]: [None] for a type that is no key of it, [Some None]
    for the key "U", whose value is [None]. *)
Definition component_map (comp_type : string) : option (option element_class) :=
  if bool_decide (comp_type = "R"%string) then Some (Some Resistor)
  else if bool_decide (comp_type = "C"%string) then Some (Some Capacitor)
  else if bool_decide (comp_type = "L"%string) then Some (Some Inductor)
  else if bool_decide (comp_type = "V"%string) then Some (Some SourceV)
  else if bool_decide (comp_type = "I"%string) then Some (Some SourceI)
  else if bool_decide (comp_type = "D"%string) then Some (Some Diode)
  else if bool_decide (comp_type = "Q"%string) then Some (Some BjtNpn)
  else if bool_decide (comp_type = "U"%string) then Some None
  else None.

(** The class of a type the two passes do not skip. *)
Definition drawable (comp_type : string) : option element_class :=
  match component_map comp_type with
  | Some (Some elem_class) => Some elem_class
  | _ => None
  end.

(** [s.split(".")[-1]]: what follows the last dot, or all of [s] when
    it has no dot. *)
Fixpoint after_last_dot (s : string) : option string :=
  match s with
  | EmptyString => None
  | String a s' =>
      match after_last_dot s' with
      | Some t => Some t
      | None => if bool_decide (a = "."%char) then Some s' else None
      end
  end.

Definition last_segment (s : string) : string := default s (after_last_dot s).

Abbreviation position := (Z * Z)%type.

(** The two variables of the first pass. *)
Record placement : Type := Placement {
  node_positions : gmap string position;
  next_pos : position
}.

(** [if node not in node_positions: ...] of the first pass *)
Definition place (node : string) (p : placement) : placement :=
  match node_positions p !! node with
  | Some _ => p
  | None =>
      {| node_positions := <[node := next_pos p]> (node_positions p);
         next_pos := ((next_pos p).1 + 2, (next_pos p).2) |}
  end.

Definition place_component (p : placement) (comp : component) : placement :=
  match drawable (comp_type comp) with
  | None => p
  | Some _ =>
      match comp_nodes comp with
      | node1 :: node2 :: _ => place node2 (place node1 p)
      | _ => p
      end
  end.

(** The first pass: ground at the origin, then the nodes in the order
    the components bring them. *)
Definition first_pass (comps : list component) : placement :=
  foldl place_component
    {| node_positions := {[ "0"%string := (0, 0) ]}; next_pos := (0, 2) |} comps.

(** The calls made on the drawing. *)
Inductive drawing_call : Type :=
| AddElement (elem : element_class) (label : string) (at_ : Q * Q) (theta : pyfloat)
| AddDot (label : string) (at_ : position)
| AddGround (at_ : position)
| Save (filepath : string).

Definition node_dot (node : string) (pos : position) : list drawing_call :=
  if bool_decide (node ≠ "0"%string) && bool_decide (node ≠ "gnd"%string)
  then [AddDot node pos] else [].

(** The body of the second pass for one component. *)
Definition draw_component (np : gmap string position) (comp : component)
  : list drawing_call :=
  match drawable (comp_type comp) with
  | None => []
  | Some elem =>
      match comp_nodes comp with
      | node1 :: node2 :: _ =>
          match np !! node1, np !! node2 with
          | Some pos1, Some pos2 =>
              let mid_x := Qmake (pos1.1 + pos2.1) 2 in
              let mid_y := Qmake (pos1.2 + pos2.2) 2 in
              let dx := pos2.1 - pos1.1 in
              let dy := pos2.2 - pos1.2 in
              AddElement elem (comp_name comp) (mid_x, mid_y)
                (FloatDegreesAtan2 (inject_Z dy) (inject_Z dx))
              :: node_dot node1 pos1 ++ node_dot node2 pos2
          | _, _ => []
          end
      | _ => []
      end
  end.

(** [Circuit.draw_schematic(filepath)]: the calls made on the drawing,
    the last of which saves it. *)
Definition draw_schematic (self : Circuit) (filepath : string)
  : exn + list drawing_call :=
  let format := PyStr.lower (last_segment filepath) in
  if bool_decide (format ∉ ["png"; "svg"; "pdf"]%string) then
    inl (ValueError ("Unsupported format: " +:+ format +:+ ". Use png, svg, or pdf."))
  else
    let np := node_positions (first_pass (components self)) in
    inr (concat (draw_component np <$> components self)
         ++ match np !! "0"%string with
            | Some pos => [AddGround pos]
            | None => []
            end
         ++ [Save filepath]).

(** The labels of the elements drawn, in order. *)
Definition element_labels (calls : list drawing_call) : list string :=
  omap (λ call, match call with AddElement _ label _ _ => Some label | _ => None end)
       calls.

(** A component the schematic shows: a drawable type and two nodes. *)
Definition shown (comp : component) : bool :=
  match drawable (comp_type comp), comp_nodes comp with
  | Some _, _ :: _ :: _ => true
  | _, _ => false
  end.

(** The first pass keeps ground at the origin and every other node on
    the line [y = 2], left of the next free position, no two on the same
    spot. *)
Definition well_placed (p : placement) : Prop :=
  (next_pos p).2 = 2 ∧ 0 ≤ (next_pos p).1
  ∧ node_positions p !! "0"%string = Some (0, 0)
  ∧ (∀ n pos, node_positions p !! n = Some pos → n ≠ "0"%string →
              pos.2 = 2 ∧ 0 ≤ pos.1 < (next_pos p).1)
  ∧ ∀ n1 n2 pos, node_positions p !! n1 = Some pos →
                 node_positions p !! n2 = Some pos → n1 = n2.


(** ** Predicates on circuits and calls *)

(** A call none of whose types ends in a digit. *)
Definition clean_op (op : operation) : bool :=
  match op with
  | Add t _ _ _ => negb (PyStr.ends_in_digit (PyStr.upper t))
  | Remove _ => true
  | ReplaceAll l =>
      forallb (λ comp, negb (PyStr.ends_in_digit (PyStr.upper (spec_type comp)))) l
  end.

(** What [add_component] stores for a description. *)
Definition stored_spec (comp : component_spec) : component_spec :=
  {| spec_type := PyStr.upper (spec_type comp); spec_nodes := spec_nodes comp;
     spec_value := spec_value comp; spec_parameters := spec_parameters comp |}.

(** The registry keeps each circuit under its own id, below the next id. *)
Definition ids_consistent (m : CircuitManager) : Prop :=
  ∀ cid circuit, _circuits m !! cid = Some circuit →
                 id circuit = cid ∧ 1 ≤ cid < _next_id m.

(** * Properties *)

(** ** Adding and removing components *)

Section CircuitOps.
Implicit Types (self : Circuit) (t n : string) (nodes : list string)
  (value : option Q) (parameters : option params).

Lemma add_component_eq self t nodes value parameters :
  add_component self t nodes value parameters =
    let T := PyStr.upper t in
    let comp := Component (T +:+ PyStr.str (next_id self T)) T nodes value parameters in
    (MkCircuit (id self) (name self) (version self + 1)
       (components self ++ [comp]) (history self)
       (<[T := next_id self T + 1]> (_next_ids self)),
     comp).
Proof.
  unfold add_component, next_id, _increment_version; simpl.
  destruct (_next_ids self !! PyStr.upper t) as [k|] eqn:Hk; simpl.
  - by rewrite (lookup_total_correct _ _ _ Hk).
  - by rewrite lookup_total_insert_eq, insert_insert_eq.
Qed.

Lemma next_id_add self t nodes value parameters T :
  next_id (add_component self t nodes value parameters).1 T =
    if bool_decide (PyStr.upper t = T) then next_id self T + 1 else next_id self T.
Proof.
  rewrite add_component_eq; unfold next_id; simpl.
  case_bool_decide as HT.
  - subst T. by rewrite lookup_insert_eq.
  - by rewrite lookup_insert_ne.
Qed.

Lemma pop_first_None n (l : list component) :
  pop_first n l = None ↔ n ∉ comp_name <$> l.
Proof.
  induction l as [|c l IH]; simpl.
  - split; [intros _; apply not_elem_of_nil | done].
  - case_bool_decide as Hc.
    + split; [done | intros []; subst; apply elem_of_cons; by left].
    + rewrite fmap_None, IH, not_elem_of_cons. split; [by split | by intros []].
Qed.

Lemma pop_first_Some n (l l' : list component) :
  pop_first n l = Some l' →
  n ∈ comp_name <$> l ∧ length l = S (length l') ∧ l' ⊆ l.
Proof.
  revert l'; induction l as [|c l IH]; intros l'; simpl; [done|].
  case_bool_decide as Hc.
  - intros [= <-]. subst n.
    split_and!; [by left | done | intros x Hx; by right].
  - destruct (pop_first n l) as [l0|]; [|done]. simpl; intros [= <-].
    destruct (IH l0 eq_refl) as (Hin & Hlen & Hsub).
    split_and!; [by right | simpl; lia |].
    intros x [->|Hx]%elem_of_cons; [by left | right; by apply Hsub].
Qed.

Lemma version_add_all self (l : list component_spec) :
  version (add_all self l) = version self + Z.of_nat (length l).
Proof.
  unfold add_all. revert self; induction l as [|c l IH]; intros self.
  - simpl. lia.
  - cbn [foldl]. rewrite IH, add_component_eq. cbn [fst version length]. lia.
Qed.

Lemma version_step self op : version self ≤ version (step self op).1.
Proof.
  destruct op as [t nodes value parameters|n|l]; unfold step; cbn [fst].
  - rewrite add_component_eq; simpl. lia.
  - unfold remove_component. destruct (pop_first _ _); simpl; lia.
  - unfold update_components. rewrite version_add_all; simpl. lia.
Qed.

Lemma version_run self ops : version self ≤ version (run self ops).1.
Proof.
  revert self; induction ops as [|op ops IH]; intros self; simpl; [lia|].
  etrans; [apply (version_step self op) | apply IH].
Qed.
End CircuitOps.

(** ** Decimal numerals and generated names *)

Section Numerals.
Import PyStr.

Lemma str_app_nil_l s : EmptyString +:+ s = s.
Proof. reflexivity. Qed.

Lemma str_app_cons a s t : String a s +:+ t = String a (s +:+ t).
Proof. reflexivity. Qed.

Lemma is_digit_pretty_N_char d : (d < 10)%N → is_digit (pretty_N_char d) = true.
Proof.
  intros Hd.
  assert (d = 0 ∨ d = 1 ∨ d = 2 ∨ d = 3 ∨ d = 4 ∨ d = 5 ∨ d = 6 ∨ d = 7
          ∨ d = 8 ∨ d = 9)%N as Hcases by lia.
  repeat destruct Hcases as [->|Hcases]; try reflexivity. by subst.
Qed.

Lemma all_digits_pretty_N_go x s :
  all_digits s = true → all_digits (pretty_N_go x s) = true.
Proof.
  revert s. induction (N.lt_wf_0 x) as [x _ IH]; intros s Hs.
  destruct (decide (x = 0)%N) as [->|Hx].
  - by rewrite pretty_N_go_0.
  - rewrite pretty_N_go_step by lia. apply IH.
    + apply N.div_lt; lia.
    + simpl. rewrite is_digit_pretty_N_char; [done|]. apply N.mod_lt. lia.
Qed.

Lemma all_digits_str (z : Z) : 0 ≤ z → all_digits (str z) = true.
Proof.
  unfold str. destruct z as [|p|p]; [done| |lia]. intros _.
  change (pretty (Z.pos p)) with (pretty (N.pos p)).
  unfold pretty, pretty_N. case_decide; [done|].
  by apply all_digits_pretty_N_go.
Qed.

Lemma str_inj (z1 z2 : Z) : str z1 = str z2 → z1 = z2.
Proof. apply pretty_Z_inj. Qed.

Lemma all_digits_app s1 s2 :
  all_digits (s1 +:+ s2) = all_digits s1 && all_digits s2.
Proof.
  induction s1 as [|a s1 IH]; [done|].
  rewrite str_app_cons. simpl. by rewrite IH, andb_assoc.
Qed.

Lemma all_digits_ends_in_digit s :
  all_digits s = true → s ≠ EmptyString → ends_in_digit s = true.
Proof.
  unfold ends_in_digit.
  induction s as [|a s IH]; [done|]. simpl. intros [Ha Hs]%andb_true_iff _.
  destruct s as [|b s]; [done|]. by apply IH.
Qed.

Lemma ends_in_digit_cons a s :
  s ≠ EmptyString → ends_in_digit (String a s) = ends_in_digit s.
Proof. unfold ends_in_digit. by destruct s. Qed.

Lemma digit_prefix_ends_in_digit U d :
  all_digits (U +:+ d) = true → U ≠ EmptyString → ends_in_digit U = true.
Proof.
  rewrite all_digits_app. intros [HU _]%andb_true_iff.
  by apply all_digits_ends_in_digit.
Qed.

(** A name splits in one way only into a type that does not end in a
    digit and a run of digits. *)
Lemma digit_suffix_unique U1 U2 d1 d2 :
  ends_in_digit U1 = false → ends_in_digit U2 = false →
  all_digits d1 = true → all_digits d2 = true →
  U1 +:+ d1 = U2 +:+ d2 → U1 = U2 ∧ d1 = d2.
Proof.
  revert U2. induction U1 as [|a U1 IH]; intros U2 H1 H2 Hd1 Hd2 Heq.
  - destruct U2 as [|b U2]; [done|]. exfalso.
    rewrite str_app_nil_l in Heq. subst d1.
    apply digit_prefix_ends_in_digit in Hd1; [congruence|done].
  - destruct U2 as [|b U2].
    + exfalso. rewrite str_app_nil_l in Heq. subst d2.
      apply digit_prefix_ends_in_digit in Hd2; [congruence|done].
    + rewrite !str_app_cons in Heq. injection Heq as -> Heq.
      destruct (IH U2) as [-> ->]; try done.
      * destruct U1; [done|]. by rewrite ends_in_digit_cons in H1.
      * destruct U2; [done|]. by rewrite ends_in_digit_cons in H2.
Qed.

Lemma generated_name_inj U1 U2 k1 k2 :
  ends_in_digit U1 = false → ends_in_digit U2 = false →
  0 ≤ k1 → 0 ≤ k2 →
  U1 +:+ str k1 = U2 +:+ str k2 → U1 = U2 ∧ k1 = k2.
Proof.
  intros H1 H2 Hk1 Hk2 Heq.
  apply digit_suffix_unique in Heq as [-> Heq];
    auto using all_digits_str, str_inj.
Qed.
End Numerals.

(** C10. [add_component] accepts any type string: the type is
    uppercased, and when the circuit holds no counter for it yet (as for
    any type outside R, C, L, V, I, D, Q, M, X, U on a new circuit) the
    counter is created at 1, the component is committed under the name
    made of the type followed by "1", and the counter is left at 2. *)
Theorem add_component_unknown_type
    (self : Circuit) (component_type : string) (nodes : list string)
    (value : option Q) (parameters : option params) :
  _next_ids self !! PyStr.upper component_type = None →
  let T := PyStr.upper component_type in
  let r := add_component self component_type nodes value parameters in
  r.2 = Component (T +:+ "1") T nodes value parameters
  ∧ components r.1 = components self ++ [r.2]
  ∧ version r.1 = version self + 1
  ∧ history r.1 = history self
  ∧ _next_ids r.1 = <[T := 2]> (_next_ids self).
Proof.
  intros Hnew T r. subst r T. rewrite add_component_eq. cbv zeta.
  unfold next_id. rewrite Hnew. by cbn.
Qed.

Lemma add_component_unknown_type_witness :
  let r := add_component (Circuit_init 1 None) "zener" ["a"; "k"]%string None None in
  r.2 = Component ("ZENER" +:+ "1") "ZENER" ["a"; "k"]%string None None
  ∧ components r.1 = components (Circuit_init 1 None) ++ [r.2]
  ∧ version r.1 = version (Circuit_init 1 None) + 1
  ∧ history r.1 = history (Circuit_init 1 None)
  ∧ _next_ids r.1 = <["ZENER"%string := 2]> (_next_ids (Circuit_init 1 None)).
Proof.
  apply (add_component_unknown_type (Circuit_init 1 None) "zener").
  vm_compute. reflexivity.
Defined.

(** C1, as the code has it. [add_component] checks nothing and rejects
    nothing: whatever the node list (empty or of any length) and whether
    or not a value is given, the call commits. It appends the component,
    named by the uppercased type and the type's next sequence number,
    advances that counter by one, increases [version] by one and leaves
    [id], [name] and [history] as they were. *)
Theorem add_component_always_commits
    (self : Circuit) (component_type : string) (nodes : list string)
    (value : option Q) (parameters : option params) :
  let T := PyStr.upper component_type in
  let r := add_component self component_type nodes value parameters in
  r.2 = Component (T +:+ PyStr.str (next_id self T)) T nodes value parameters
  ∧ components r.1 = components self ++ [r.2]
  ∧ version r.1 = version self + 1
  ∧ history r.1 = history self
  ∧ id r.1 = id self ∧ name r.1 = name self
  ∧ next_id r.1 T = next_id self T + 1
  ∧ ∀ T', T' ≠ T → _next_ids r.1 !! T' = _next_ids self !! T'.
Proof.
  intros T r. subst r T. rewrite next_id_add. rewrite add_component_eq.
  cbv zeta. cbn. rewrite bool_decide_eq_true_2 by done.
  split_and!; try done. intros T' HT'. by rewrite lookup_insert_ne.
Qed.

(** C1, counterexample. A resistor with an empty node list and no value
    is not rejected: the call returns the component R1, the circuit then
    holds it, [version] has gone from 1 to 2 and the counter of R from 1
    to 2. *)
Lemma add_component_accepts_empty_nodes :
  let fresh := Circuit_init 1 None in
  let r := add_component fresh "R" [] None None in
  r.2 = Component "R1" "R" [] None None
  ∧ components r.1 = [r.2]
  ∧ version fresh = 1 ∧ version r.1 = 2
  ∧ next_id fresh "R" = 1 ∧ next_id r.1 "R" = 2
  ∧ r.1 ≠ fresh.
Proof.
  split_and!; try (vm_compute; reflexivity).
  intros H. apply (f_equal version) in H. vm_compute in H. discriminate.
Qed.

(** ** The version counter *)

Lemma remove_component_found (self : Circuit) (n : string) :
  (remove_component self n).2 = bool_decide (n ∈ comp_name <$> components self).
Proof.
  unfold remove_component.
  destruct (pop_first n (components self)) as [l|] eqn:Hpop; simpl.
  - apply pop_first_Some in Hpop as (Hin & _). by rewrite bool_decide_eq_true_2.
  - apply pop_first_None in Hpop. by rewrite bool_decide_eq_false_2.
Qed.



(** ** Generated names *)

Section Names.
Implicit Types (self : Circuit) (U T n : string) (ops : list operation).

Lemma next_id_init circuit_id nm U : next_id (Circuit_init circuit_id nm) U = 1.
Proof.
  unfold next_id, Circuit_init, initial_next_ids; simpl.
  repeat (rewrite lookup_insert; case_decide; [done|]).
  by rewrite lookup_empty.
Qed.

Lemma well_numbered_init circuit_id nm : well_numbered (Circuit_init circuit_id nm).
Proof.
  split.
  - intros U. rewrite next_id_init. lia.
  - intros c Hc. simpl in Hc. by apply elem_of_nil in Hc.
Qed.

Lemma names_add_many args self T :
  comp_name <$> components (add_many self T args) =
    (comp_name <$> components self)
    ++ ((λ k, PyStr.upper T +:+ PyStr.str k)
          <$> seqZ (next_id self (PyStr.upper T)) (Z.of_nat (length args))).
Proof.
  unfold add_many.
  revert self; induction args as [|a args IH]; intros self.
  - simpl. by rewrite app_nil_r.
  - cbn [foldl]. rewrite IH, next_id_add, bool_decide_eq_true_2 by done.
    rewrite add_component_eq. cbn [fst components length].
    rewrite fmap_app, <- app_assoc. f_equal.
    rewrite (seqZ_cons (next_id self (PyStr.upper T))) by lia.
    cbn [fmap list_fmap comp_name app]. do 3 f_equal; lia.
Qed.

Lemma next_id_step self op U :
  digit_free op = true → next_id self U ≤ next_id (step self op).1 U.
Proof.
  destruct op as [t nodes value parameters|n|l]; [| |done]; intros _;
    unfold step; cbn [fst].
  - rewrite next_id_add. case_bool_decide; lia.
  - unfold remove_component. by destruct (pop_first _ _).
Qed.

Lemma issued_step self op n :
  digit_free op = true → issued self n → issued (step self op).1 n.
Proof.
  intros Hop (U & k & -> & HU & Hk). exists U, k. split_and!; try done; [lia|].
  pose proof (next_id_step self op U Hop). lia.
Qed.

Lemma well_numbered_step self op :
  digit_free op = true → well_numbered self → well_numbered (step self op).1.
Proof.
  intros Hop [Hpos Hcomps]. split.
  - intros U. pose proof (next_id_step self op U Hop). specialize (Hpos U). lia.
  - intros c Hc. destruct op as [t nodes value parameters|n|l]; [| |done].
    + revert Hc. unfold step; cbn [fst].
      pose proof (next_id_add self t nodes value parameters (PyStr.upper t)) as Hnext.
      rewrite bool_decide_eq_true_2 in Hnext by done. revert Hnext.
      pose proof (issued_step self (Add t nodes value parameters)) as Hstep.
      revert Hstep. unfold step; cbn [fst].
      rewrite add_component_eq; cbn [fst components].
      intros Hstep Hnext [Hold|Hnew%list_elem_of_singleton]%elem_of_app.
      * apply Hstep; [done|]. by apply Hcomps.
      * subst c. cbn [comp_name].
        exists (PyStr.upper t), (next_id self (PyStr.upper t)).
        split_and!; [done| |apply Hpos|lia].
        simpl in Hop. by apply negb_true_iff in Hop.
    + revert Hc. unfold step, remove_component; cbn [fst].
      destruct (pop_first n (components self)) as [l|] eqn:Hpop; cbn.
      * apply pop_first_Some in Hpop as (_ & _ & Hsub).
        intros Hc. apply Hsub, Hcomps in Hc. exact Hc.
      * apply Hcomps.
Qed.

Lemma removed_was_issued self n :
  well_numbered self → (remove_component self n).2 = true → issued self n.
Proof.
  intros [_ Hcomps]. rewrite remove_component_found.
  intros Hin%bool_decide_eq_true.
  apply list_elem_of_fmap in Hin as (c & -> & Hc). by apply Hcomps.
Qed.

Lemma added_name_fresh self t nodes value parameters n :
  well_numbered self → PyStr.ends_in_digit (PyStr.upper t) = false →
  issued self n →
  comp_name (add_component self t nodes value parameters).2 ≠ n.
Proof.
  intros [Hpos _] Ht (U & k & -> & HU & Hk).
  rewrite add_component_eq; cbn [snd comp_name]. intros Heq.
  specialize (Hpos (PyStr.upper t)).
  apply generated_name_inj in Heq as [<- <-]; [lia|done|done|lia|lia].
Qed.

Lemma later_adds_fresh ops self n j comp :
  forallb digit_free ops = true → well_numbered self → issued self n →
  (run self ops).2 !! j = Some (Added comp) → comp_name comp ≠ n.
Proof.
  revert self j; induction ops as [|op ops IH]; intros self j; [done|].
  cbn [forallb run snd]. intros [Hop Hops]%andb_true_iff Hwn Hn.
  destruct j as [|j]; cbn [lookup list_lookup].
  - destruct op as [t nodes value parameters|?|?]; [|done|done].
    intros [= <-]. apply added_name_fresh; [done| |done].
    simpl in Hop. by apply negb_true_iff in Hop.
  - apply IH; eauto using well_numbered_step, issued_step.
Qed.

Lemma removed_names_not_reused ops self i j n comp :
  forallb digit_free ops = true → well_numbered self → (i < j)%nat →
  (run self ops).2 !! i = Some (Removed n true) →
  (run self ops).2 !! j = Some (Added comp) →
  comp_name comp ≠ n.
Proof.
  revert self i j; induction ops as [|op ops IH]; intros self i j; [done|].
  cbn [forallb run snd]. intros [Hop Hops]%andb_true_iff Hwn Hij.
  destruct j as [|j]; [lia|]. destruct i as [|i]; cbn [lookup list_lookup].
  - destruct op as [?|n'|?]; [done| |done]. unfold step at 1; cbn [snd].
    intros [= -> Hfound]. apply later_adds_fresh; [done|..].
    + by apply well_numbered_step.
    + apply (issued_step self (Remove n)); [done|].
      by apply removed_was_issued.
  - apply IH; [done| |lia]. by apply well_numbered_step.
Qed.
End Names.

(** C2, as the code has it. On a new circuit, [N] calls of
    [add_component] with type [T] generate, in insertion order, the names
    made of [T] in upper case followed by 1, 2, ..., [N]. In every
    sequence of [add_component] and [remove_component] calls on a new
    circuit whose types do not end in a decimal digit (none of R, C, L,
    V, I, D, Q, M, X, U does), an addition made after a removal never
    gets the name of the removed component. *)
Theorem generated_names (circuit_id : Z) (nm : option string) :
  let fresh := Circuit_init circuit_id nm in
  (∀ T args,
     comp_name <$> components (add_many fresh T args)
     = (λ k, PyStr.upper T +:+ PyStr.str k) <$> seqZ 1 (Z.of_nat (length args)))
  ∧ (∀ ops i j n comp,
       forallb digit_free ops = true → (i < j)%nat →
       (run fresh ops).2 !! i = Some (Removed n true) →
       (run fresh ops).2 !! j = Some (Added comp) →
       comp_name comp ≠ n).
Proof.
  intros fresh; subst fresh; split.
  - intros T args. by rewrite names_add_many, next_id_init.
  - intros ops i j n comp Hops Hij. apply removed_names_not_reused; [done| |done].
    apply well_numbered_init.
Qed.

Lemma generated_names_witness :
  let ops := [Add "R" ["1"; "2"] None None; Add "r" ["2"; "0"] None None;
              Remove "R1"; Add "R" ["1"; "0"] None None]%string in
  let comp := Component "R3" "R" ["1"; "0"]%string None None in
  forallb digit_free ops = true ∧ (2 < 3)%nat
  ∧ (run (Circuit_init 1 None) ops).2 !! 2%nat = Some (Removed "R1" true)
  ∧ (run (Circuit_init 1 None) ops).2 !! 3%nat = Some (Added comp)
  ∧ comp_name comp ≠ "R1"%string.
Proof.
  intros ops comp.
  assert (forallb digit_free ops = true) as H1 by (vm_compute; reflexivity).
  assert ((run (Circuit_init 1 None) ops).2 !! 2%nat = Some (Removed "R1" true))
    as H2 by (vm_compute; reflexivity).
  assert ((run (Circuit_init 1 None) ops).2 !! 3%nat = Some (Added comp))
    as H3 by (vm_compute; reflexivity).
  split_and!; [exact H1 | lia | exact H2 | exact H3 |].
  exact (proj2 (generated_names 1 None) ops 2%nat 3%nat "R1"%string comp
           H1 (Nat.lt_succ_diag_r 2) H2 H3).
Defined.

(** C2, counterexample. Type strings are not checked, so ["R1"] is a
    type of its own: after eleven resistors R1..R11 and the removal of
    R11, the first component of type ["R1"] is named R11 again. And a
    type given in lower case names its components in upper case: two
    additions of type ["r"] are named R1 and R2, not r1 and r2. *)
Lemma removed_name_reused :
  let r := Add "R" ["1"; "2"]%string None None in
  let ops := [r; r; r; r; r; r; r; r; r; r; r;
              Remove "R11"; Add "R1" ["1"; "2"]%string None None] in
  let out := (run (Circuit_init 1 None) ops).2 in
  out !! 11%nat = Some (Removed "R11" true)
  ∧ out !! 12%nat = Some (Added (Component "R11" "R1" ["1"; "2"]%string None None))
  ∧ comp_name <$> components
      (add_many (Circuit_init 1 None) "r"
         [(["1"; "2"]%string, None, None); (["2"; "0"]%string, None, None)])
    = ["R1"; "R2"]%string.
Proof. split_and!; vm_compute; reflexivity. Qed.

(** ** Saving and loading the registry *)

(** Loading re-adds every saved component through [add_component], after
    the saved version has been set: the loaded version is the saved one
    plus the number of components. *)
Lemma load_circuit_version (cid : Z) (circuit_data : circuit_dict) :
  version (load_circuit cid circuit_data)
  = d_version circuit_data + Z.of_nat (length (d_components circuit_data)).
Proof.
  unfold load_circuit. rewrite version_add_all, length_fmap. reflexivity.
Qed.

(** C4, the code at a failing input. A circuit that held R1 and R2 and
    lost R1 is saved as version 4 with the component R2; loading what was
    saved gives a circuit at version 5 whose component is named R1. *)
Theorem reload_changes_version_and_names :
  let q := λ z, Some (inject_Z z) in
  let c0 := Circuit_init 1 (Some "rc"%string) in
  let c1 := (add_component c0 "R" ["1"; "2"]%string (q 1000) None).1 in
  let c2 := (add_component c1 "R" ["2"; "0"]%string (q 2000) None).1 in
  let c3 := (remove_component c2 "R1").1 in
  let registry := {| _circuits := {[ 1 := c3 ]}; _next_id := 2 |} in
  let reloaded := _load_from_disk (_save_to_disk registry) in
  to_dict <$> _circuits registry !! 1
    = Some (CircuitDict 1 "rc" 4
              [Component "R2" "R" ["2"; "0"]%string (q 2000) None])
  ∧ to_dict <$> _circuits reloaded !! 1
    = Some (CircuitDict 1 "rc" 5
              [Component "R1" "R" ["2"; "0"]%string (q 2000) None]).
Proof. split; vm_compute; reflexivity. Qed.

(** ** Netlist translation *)


(** C6. A component of type U whose parameters say [uvx_type = "opamp"]
    and which has at least three nodes (out, in-, in+) is translated
    without error into exactly three calls: a 1e9 ohm resistor from in+
    to a first internal node, a 1e9 ohm resistor from in- to a second
    internal node, and one voltage-controlled voltage source driving the
    output against ground from the two internal nodes, with gain
    [parameters["gain"]], or 1e6 when that key is absent. *)
Theorem opamp_translation
    (hasattr : list instr → pyval → bool) (sofar : list instr)
    (comp : component) (ps : params) (out in_n in_p : string) (rest : list string) :
  comp_type comp = "U"%string →
  comp_parameters comp = Some ps →
  ps !! "uvx_type"%string = Some (PStr "opamp") →
  comp_nodes comp = out :: in_n :: in_p :: rest →
  let int_node1 := Node ("int_" +:+ comp_name comp +:+ "_1") in
  let int_node2 := Node ("int_" +:+ comp_name comp +:+ "_2") in
  translate_component hasattr sofar comp
  = inr [SpiceR (comp_name comp +:+ "_in_p") (normalize_node in_p) int_node1
           (num 1000000000 @ u_Ω);
         SpiceR (comp_name comp +:+ "_in_n") (normalize_node in_n) int_node2
           (num 1000000000 @ u_Ω);
         SpiceVCVS (comp_name comp) (normalize_node out) Gnd int_node1 int_node2
           (default (num 1000000) (ps !! "gain"%string))].
Proof.
  intros Htype Hps Huvx Hnodes. unfold translate_component.
  rewrite Htype, Hps, Hnodes. unfold default, dict_get_default.
  cbn [from_option Datatypes.id]. rewrite Huvx.
  repeat (rewrite bool_decide_eq_false_2 by discriminate).
  rewrite bool_decide_eq_true_2 by reflexivity.
  cbn [py_eq_str]. rewrite bool_decide_eq_true_2 by reflexivity.
  rewrite bool_decide_eq_true_2 by (cbn; lia).
  by destruct (ps !! "gain"%string).
Qed.

Lemma opamp_translation_witness :
  let ps : params := {[ "uvx_type"%string := PStr "opamp" ]} in
  let comp := Component "U1" "U" ["out"; "in-"; "in+"]%string None (Some ps) in
  translate_component (λ _ _, false) [] comp
  = inr [SpiceR "U1_in_p" (Node "in+") (Node "int_U1_1") (num 1000000000 @ u_Ω);
         SpiceR "U1_in_n" (Node "in-") (Node "int_U1_2") (num 1000000000 @ u_Ω);
         SpiceVCVS "U1" (Node "out") Gnd (Node "int_U1_1") (Node "int_U1_2")
           (num 1000000)].
Proof.
  intros ps comp.
  exact (opamp_translation (λ _ _, false) [] comp ps "out" "in-" "in+" []
           eq_refl eq_refl eq_refl eq_refl).
Defined.

(** ** Simulation *)

Section SimulateFacts.
Context (solver : Solver).
Implicit Types (w : world) (analysis : string) (sim_params : option params).

Lemma read_only_ret {A} (x : A) : read_only (mret x).
Proof. by intros w. Qed.

Lemma read_only_raise {A} (e : exn) : read_only (@raise A e).
Proof. by intros w. Qed.

Lemma read_only_get_self : read_only get_self.
Proof. by intros w. Qed.

Lemma read_only_emit ev : read_only (emit ev).
Proof. by intros w. Qed.

Lemma read_only_lift {A} (m : exn + A) : read_only (lift m).
Proof. by intros w. Qed.

Lemma read_only_bind {A B} (m : Sim A) (k : A → Sim B) :
  read_only m → (∀ a, read_only (k a)) → read_only (m ≫= k).
Proof.
  intros Hm Hk w. unfold mbind, sim_bind. specialize (Hm w).
  destruct (m w) as [w' [e|a]]; simpl in *; [done|].
  by rewrite Hk.
Qed.

Lemma read_only_reraise {A} handler (body : Sim A) :
  read_only body → read_only (reraise handler body).
Proof.
  intros Hbody w. unfold reraise. specialize (Hbody w).
  by destruct (body w) as [w' [e|a]].
Qed.

Lemma read_only_call_operating_point simulator :
  read_only (call_operating_point solver simulator).
Proof.
  unfold call_operating_point.
  apply read_only_bind; [apply read_only_emit|]. intros _.
  destruct (run_operating_point _ _); [apply read_only_raise | apply read_only_ret].
Qed.

Lemma read_only_call_sweep simulator d : read_only (call_sweep solver simulator d).
Proof.
  unfold call_sweep.
  apply read_only_bind; [apply read_only_emit|]. intros _.
  destruct (run_sweep _ _ _); [apply read_only_raise | apply read_only_ret].
Qed.

Lemma read_only_run_analysis simulator analysis (ps : params) :
  read_only (run_analysis solver simulator analysis ps).
Proof.
  unfold run_analysis.
  repeat first
    [ apply read_only_raise
    | apply read_only_ret
    | apply read_only_call_operating_point
    | apply read_only_call_sweep
    | apply read_only_bind; [|intros ?]
    | case_bool_decide
    | match goal with |- read_only (if ?b then _ else _) => destruct b end ].
Qed.

Lemma read_only_simulate analysis sim_params :
  read_only (simulate solver analysis sim_params).
Proof.
  unfold simulate.
  apply read_only_bind; [apply read_only_get_self|]. intros self.
  apply read_only_bind; [apply read_only_lift|]. intros spice_circuit.
  apply read_only_bind; [apply read_only_emit|]. intros _.
  apply read_only_reraise, read_only_run_analysis.
Qed.

(** [simulate] in two stages: the netlist is built, then the simulator
    is created and the analysis dispatched. *)
Lemma simulate_eq analysis sim_params w :
  simulate solver analysis sim_params w =
    match build_netlist (hasattr_model solver) (self_of w) with
    | inl e => (w, inl e)
    | inr spice_circuit =>
        reraise (λ e, ValueError ("Simulation failed: " +:+ exn_str e))
          (run_analysis solver spice_circuit (PyStr.lower analysis)
             (default ∅ sim_params))
          (World (self_of w) (trace w ++ [NewInstance spice_circuit]))
    end.
Proof.
  unfold simulate, mbind, sim_bind, get_self, lift, emit; simpl.
  by destruct (build_netlist _ _).
Qed.







End SimulateFacts.

(** C9. [simulate] reads the circuit and never writes it: whatever the
    analysis kind and the parameters, whatever the solver answers, and
    whether the call returns a result or raises, the circuit object after
    the call is the one before it, with the same components, version,
    history and per-type counters. *)
Theorem simulate_leaves_circuit_unchanged
    (solver : Solver) (analysis : string) (sim_params : option params) (w : world) :
  let before := self_of w in
  let after := self_of (simulate solver analysis sim_params w).1 in
  components after = components before
  ∧ version after = version before
  ∧ history after = history before
  ∧ _next_ids after = _next_ids before
  ∧ after = before.
Proof.
  intros before after.
  assert (after = before) as -> by apply read_only_simulate.
  by split_and!.
Qed.






(** ** The scenarios of the test suite *)

(** [test_add_component]: the first resistor, capacitor and source are
    R1, C1 and V1. *)
Example test_add_component :
  comp_name <$> components
    (add_all test_circuit
       [ComponentSpec "R" ["1"; "2"]%string (Some (inject_Z 1000)) None;
        ComponentSpec "C" ["2"; "0"]%string None None;
        ComponentSpec "V" ["1"; "0"]%string (Some (inject_Z 5)) None])
  = ["R1"; "C1"; "V1"]%string.
Proof. vm_compute. reflexivity. Qed.

(** [test_remove_component]: R1 is found and removed, X1 is not found. *)
Example test_remove_component :
  let c := add_all test_circuit
             [ComponentSpec "R" ["1"; "2"]%string (Some (inject_Z 1000)) None;
              ComponentSpec "C" ["2"; "0"]%string None None] in
  let r := remove_component c "R1" in
  r.2 = true ∧ length (components r.1) = 1%nat
  ∧ (remove_component r.1 "X1").2 = false.
Proof. split_and!; vm_compute; reflexivity. Qed.

(** Replacing the single resistor of a circuit by one capacitor: the
    version grows by 2, the history gains the old list under the old
    version, and the capacitor is C1. *)
Example replace_one_by_one :
  let c := add_all test_circuit
             [ComponentSpec "R" ["1"; "2"]%string (Some (inject_Z 1000)) None] in
  let c' := update_components c [ComponentSpec "C" ["1"; "0"]%string None None] in
  version c = 2 ∧ version c' = 4
  ∧ history c' = [Snapshot 2 (components c)]
  ∧ comp_name <$> components c' = ["C1"]%string.
Proof. split_and!; vm_compute; reflexivity. Qed.

(** A resistor with a single node stops the translation, and the error
    names the component. *)
Example translate_short_resistor :
  ∃ msg,
    build_netlist (λ _ _, false)
      (add_all test_circuit
         [ComponentSpec "R" ["1"]%string (Some (inject_Z 1000)) None])
    = inl (ValueError msg)
    ∧ msg = "Error adding component R1: list index out of range"%string.
Proof. eexists. split; [vm_compute; reflexivity | reflexivity]. Qed.

(** * Further properties of the circuit model *)

(** ** History and bulk replacement *)

Lemma add_all_cons (self : Circuit) (comp : component_spec) (l : list component_spec) :
  add_all self (comp :: l)
  = add_all (add_component self (spec_type comp) (spec_nodes comp)
               (spec_value comp) (spec_parameters comp)).1 l.
Proof. reflexivity. Qed.

Lemma history_add_all (self : Circuit) (l : list component_spec) :
  history (add_all self l) = history self.
Proof.
  revert self; induction l as [|comp l IH]; intros self; [done|].
  by rewrite add_all_cons, IH, add_component_eq.
Qed.

Lemma history_step (self : Circuit) (op : operation) :
  history self `prefix_of` history (step self op).1.
Proof.
  destruct op as [t nodes value parameters|n|l]; unfold step; cbn [fst].
  - by rewrite add_component_eq.
  - unfold remove_component. by destruct (pop_first _ _).
  - unfold update_components. rewrite history_add_all. cbn.
    by apply prefix_app_r.
Qed.

Lemma history_update_components (self : Circuit) (l : list component_spec) :
  history (update_components self l)
  = history self ++ [Snapshot (version self) (components self)].
Proof. unfold update_components. by rewrite history_add_all. Qed.

Lemma history_run (ops : list operation) (self : Circuit) :
  history self `prefix_of` history (run self ops).1.
Proof.
  revert self. induction ops as [|op ops IH]; intros self; [done|].
  cbn [run fst]. etrans; [apply (history_step self op) | apply IH].
Qed.

Lemma version_update_components (self : Circuit) (l : list component_spec) :
  version (update_components self l) = version self + 1 + Z.of_nat (length l).
Proof. unfold update_components. by rewrite version_add_all. Qed.

(** X1. [history] is append-only: [add_component] and
    [remove_component] leave it as it is, [update_components] appends
    exactly one record holding the version and the components the
    circuit had when it was called, and over any sequence of calls the
    old history is a prefix of the new one. *)
Theorem history_append_only (self : Circuit) :
  (∀ t nodes value parameters,
     history (add_component self t nodes value parameters).1 = history self)
  ∧ (∀ n, history (remove_component self n).1 = history self)
  ∧ (∀ l, history (update_components self l)
          = history self ++ [Snapshot (version self) (components self)])
  ∧ (∀ ops, history self `prefix_of` history (run self ops).1).
Proof.
  split_and!.
  - intros. by rewrite add_component_eq.
  - intros n. unfold remove_component. by destruct (pop_first _ _).
  - apply history_update_components.
  - intros ops. apply history_run.
Qed.

(** What a run of additions appends, whatever the circuit held before. *)
Lemma add_all_appends (l : list component_spec) (self : Circuit) :
  ∃ news,
    components (add_all self l) = components self ++ news
    ∧ spec_of_component <$> news = stored_spec <$> l
    ∧ (∀ T, next_id self T ≤ next_id (add_all self l) T)
    ∧ ∀ c, c ∈ news →
        ∃ k, comp_name c = comp_type c +:+ PyStr.str k
             ∧ next_id self (comp_type c) ≤ k
               < next_id (add_all self l) (comp_type c).
Proof.
  revert self; induction l as [|comp l IH]; intros self.
  - exists []. split_and!; [by rewrite app_nil_r | done | done |].
    intros c Hc. by apply elem_of_nil in Hc.
  - rewrite add_all_cons.
    set (r := add_component self (spec_type comp) (spec_nodes comp)
                (spec_value comp) (spec_parameters comp)).
    destruct (IH r.1) as (news & Hcomps & Hspecs & Hmono & Hnames).
    assert (∀ T, next_id self T ≤ next_id r.1 T) as Hstep.
    { intros T. subst r. rewrite next_id_add. case_bool_decide; lia. }
    assert (next_id r.1 (PyStr.upper (spec_type comp))
            = next_id self (PyStr.upper (spec_type comp)) + 1) as Hself.
    { subst r. rewrite next_id_add. by rewrite bool_decide_eq_true_2. }
    exists (r.2 :: news). split_and!.
    + rewrite Hcomps. subst r. rewrite add_component_eq. cbn [fst snd components].
      by rewrite <- app_assoc.
    + rewrite !fmap_cons, Hspecs. by f_equal.
    + intros T. specialize (Hstep T). specialize (Hmono T). lia.
    + intros c [->|Hc]%elem_of_cons.
      * exists (next_id self (PyStr.upper (spec_type comp))).
        subst r. rewrite add_component_eq. cbn [snd comp_name comp_type].
        split; [done|]. rewrite add_component_eq in Hself.
        specialize (Hmono (PyStr.upper (spec_type comp))).
        rewrite add_component_eq in Hmono. cbv zeta in *. lia.
      * destruct (Hnames c Hc) as (k & Hk & Hlo & Hhi). exists k.
        split; [done|]. specialize (Hstep (comp_type c)). lia.
Qed.

(** X2. [update_components] stores one component per description, in
    the order given, with the type in upper case and the nodes, value and
    parameters as given. The names do not start again at 1: each new
    component is named by its type and a number that is at least the
    type's counter before the call and below the counter after it. *)
Theorem update_components_stores (self : Circuit) (l : list component_spec) :
  let self' := update_components self l in
  spec_of_component <$> components self' = stored_spec <$> l
  ∧ ∀ c, c ∈ components self' →
      ∃ k, comp_name c = comp_type c +:+ PyStr.str k
           ∧ next_id self (comp_type c) ≤ k < next_id self' (comp_type c).
Proof.
  unfold update_components.
  set (cleared := MkCircuit _ _ _ [] _ _).
  destruct (add_all_appends l cleared) as (news & Hcomps & Hspecs & _ & Hnames).
  cbn [components app] in Hcomps. cbv zeta.
  rewrite Hcomps. split; [done|]. intros c Hc. by apply Hnames.
Qed.

(** X3. No call lowers a counter: over any sequence of additions,
    removals and bulk replacements the next sequence number of every type
    stays or grows, and a removal leaves every counter where it was. *)
Theorem counters_never_decrease (self : Circuit) :
  (∀ n, _next_ids (remove_component self n).1 = _next_ids self)
  ∧ (∀ ops T, next_id self T ≤ next_id (run self ops).1 T).
Proof.
  split.
  - intros n. unfold remove_component. by destruct (pop_first _ _).
  - intros ops. revert self. induction ops as [|op ops IH]; intros self T; [done|].
    cbn [run fst]. etrans; [|apply IH].
    destruct op as [t nodes value parameters|n|l]; unfold step; cbn [fst].
    + rewrite next_id_add. case_bool_decide; lia.
    + unfold remove_component. by destruct (pop_first _ _).
    + unfold update_components.
      set (cleared := MkCircuit _ _ _ [] _ _).
      destruct (add_all_appends l cleared) as (_ & _ & _ & Hmono & _).
      apply (Hmono T).
Qed.

(** ** Removal and the uniqueness of names *)

Lemma pop_first_split (n : string) (l l' : list component) :
  pop_first n l = Some l' →
  ∃ l1 c l2, l = l1 ++ c :: l2 ∧ l' = l1 ++ l2
             ∧ comp_name c = n ∧ n ∉ comp_name <$> l1.
Proof.
  revert l'; induction l as [|c l IH]; intros l'; simpl; [done|].
  case_bool_decide as Hc.
  - intros [= <-]. exists [], c, l. split_and!; try done. apply not_elem_of_nil.
  - destruct (pop_first n l) as [l0|]; [|done]. simpl; intros [= <-].
    destruct (IH l0 eq_refl) as (l1 & c' & l2 & -> & -> & Hn & Hl1).
    exists (c :: l1), c', l2. split_and!; try done.
    rewrite fmap_cons. apply not_elem_of_cons. by split.
Qed.

Lemma remove_component_cases (self : Circuit) (n : string) :
  ((n ∉ comp_name <$> components self) ∧ remove_component self n = (self, false))
  ∨ ∃ l1 c l2,
      components self = l1 ++ c :: l2
      ∧ comp_name c = n ∧ (n ∉ comp_name <$> l1)
      ∧ remove_component self n
        = (MkCircuit (id self) (name self) (version self + 1) (l1 ++ l2)
             (history self) (_next_ids self), true).
Proof.
  unfold remove_component.
  destruct (pop_first n (components self)) as [l'|] eqn:Hpop.
  - right. apply pop_first_split in Hpop as (l1 & c & l2 & Hl & -> & Hc & Hl1).
    by exists l1, c, l2.
  - left. by apply pop_first_None in Hpop.
Qed.

(** X4. [remove_component] takes out the first component called
    [component_name] and nothing else: either no component has the name,
    and the call returns [False] and changes nothing; or the list is
    [l1 ++ c :: l2] with [c] the first component of that name, and the
    call returns [True], leaves [l1 ++ l2] in the same order, adds 1 to
    the version and keeps id, name, history and counters. *)
Theorem remove_component_first_match (self : Circuit) (n : string) :
  ((n ∉ comp_name <$> components self) ∧ remove_component self n = (self, false))
  ∨ ∃ l1 c l2,
      components self = l1 ++ c :: l2
      ∧ comp_name c = n ∧ (n ∉ comp_name <$> l1)
      ∧ remove_component self n
        = (MkCircuit (id self) (name self) (version self + 1) (l1 ++ l2)
             (history self) (_next_ids self), true).
Proof. apply remove_component_cases. Qed.

Section UniqueNames.
Implicit Types (self : Circuit) (ops : list operation).

Lemma unique_add self t nodes value parameters :
  PyStr.ends_in_digit (PyStr.upper t) = false →
  well_numbered self ∧ NoDup (comp_name <$> components self) →
  let self' := (add_component self t nodes value parameters).1 in
  well_numbered self' ∧ NoDup (comp_name <$> components self').
Proof.
  intros Ht [Hwn Hnd] self'. split.
  - apply (well_numbered_step self (Add t nodes value parameters)); [|done].
    simpl. by rewrite Ht.
  - pose proof (added_name_fresh self t nodes value parameters) as Hfresh.
    subst self'. rewrite add_component_eq in *. cbn [fst snd components] in *.
    rewrite fmap_app. apply NoDup_app. split_and!; [done| |apply NoDup_singleton].
    intros x Hx Hnew. apply list_elem_of_singleton in Hnew. cbn in Hnew.
    apply list_elem_of_fmap in Hx as (c & -> & Hc).
    apply (Hfresh (comp_name c)); [done|done| |done].
    destruct Hwn as [_ Hissued]. by apply Hissued.
Qed.

Lemma unique_add_all (l : list component_spec) self :
  forallb (λ comp, negb (PyStr.ends_in_digit (PyStr.upper (spec_type comp)))) l = true →
  well_numbered self ∧ NoDup (comp_name <$> components self) →
  well_numbered (add_all self l) ∧ NoDup (comp_name <$> components (add_all self l)).
Proof.
  revert self; induction l as [|comp l IH]; intros self; [done|].
  cbn [forallb]. intros [Hc Hl]%andb_true_iff Hself. rewrite add_all_cons.
  apply IH; [done|]. apply unique_add; [|done]. by apply negb_true_iff.
Qed.

Lemma unique_step self op :
  clean_op op = true →
  well_numbered self ∧ NoDup (comp_name <$> components self) →
  well_numbered (step self op).1 ∧ NoDup (comp_name <$> components (step self op).1).
Proof.
  intros Hop Hself. destruct op as [t nodes value parameters|n|l];
    unfold step; cbn [fst].
  - apply unique_add; [|done]. simpl in Hop. by apply negb_true_iff.
  - destruct Hself as [Hwn Hnd]. split.
    + by apply (well_numbered_step self (Remove n)).
    + destruct (remove_component_cases self n)
        as [[_ ->]|(l1 & c & l2 & Hl & _ & _ & ->)]; [done|].
      cbn [fst components]. rewrite Hl in Hnd.
      rewrite fmap_app, fmap_cons in Hnd. rewrite fmap_app.
      apply NoDup_app in Hnd as (Hl1 & Hdisj & [_ Hl2]%NoDup_cons).
      apply NoDup_app. split_and!; [done| |done].
      intros x Hx Hx2. apply (Hdisj x Hx). by right.
  - unfold update_components. apply unique_add_all; [done|].
    destruct Hself as [[Hpos _] _]. split; [split|].
    + exact Hpos.
    + intros c Hc. by apply elem_of_nil in Hc.
    + apply NoDup_nil_2.
Qed.

Lemma unique_run ops self :
  forallb clean_op ops = true →
  well_numbered self ∧ NoDup (comp_name <$> components self) →
  NoDup (comp_name <$> components (run self ops).1).
Proof.
  revert self; induction ops as [|op ops IH]; intros self; [by intros _ []|].
  cbn [forallb run fst]. intros [Hop Hops]%andb_true_iff Hself.
  apply IH; [done|]. by apply unique_step.
Qed.
End UniqueNames.

(** X5. On a new circuit, after any sequence of additions, removals
    and bulk replacements whose types do not end in a decimal digit, no
    two components carry the same name; so a removal that succeeds leaves
    no component of that name behind. *)
Theorem component_names_unique
    (circuit_id : Z) (nm : option string) (ops : list operation) :
  forallb clean_op ops = true →
  let self := (run (Circuit_init circuit_id nm) ops).1 in
  NoDup (comp_name <$> components self)
  ∧ ∀ n, n ∉ comp_name <$> components (remove_component self n).1.
Proof.
  intros Hops self.
  assert (NoDup (comp_name <$> components self)) as Hnd.
  { apply unique_run; [done|]. split; [apply well_numbered_init|]. apply NoDup_nil_2. }
  split; [done|]. intros n.
  destruct (remove_component_cases self n)
    as [[Hn ->]|(l1 & c & l2 & Hl & Hc & Hl1 & ->)]; [done|].
  cbn [fst components]. rewrite Hl, fmap_app, fmap_cons, Hc in Hnd.
  apply NoDup_app in Hnd as (_ & Hdisj & [Hl2 _]%NoDup_cons).
  rewrite fmap_app. by intros [?|?]%elem_of_app.
Qed.

Lemma component_names_unique_witness :
  let ops := [Add "r" ["1"; "2"] None None; Add "C" ["2"; "0"] None None;
              ReplaceAll [ComponentSpec "R" ["1"; "0"] None None;
                          ComponentSpec "R" ["1"; "2"] None None];
              Remove "R2"]%string in
  let self := (run (Circuit_init 1 None) ops).1 in
  NoDup (comp_name <$> components self)
  ∧ ∀ n, n ∉ comp_name <$> components (remove_component self n).1.
Proof.
  intros ops. apply (component_names_unique 1 None ops). reflexivity.
Defined.

(** ** Reading old versions *)

Section Versions.
Implicit Types (self : Circuit) (ops : list operation).

Lemma sorted_last_grows (l : list Z) (v v' : Z) :
  StronglySorted Z.lt (l ++ [v]) → v ≤ v' → StronglySorted Z.lt (l ++ [v']).
Proof.
  rewrite !StronglySorted_app. intros (Hlt & Hl & _) Hv. split_and!; [|done|].
  - intros x1 x2 Hx1 Hx2%list_elem_of_singleton. subst x2.
    specialize (Hlt x1 v Hx1 (list_elem_of_here _ _)). lia.
  - repeat constructor.
Qed.

Lemma sorted_push (l : list Z) (v v' : Z) :
  StronglySorted Z.lt (l ++ [v]) → v < v' → StronglySorted Z.lt ((l ++ [v]) ++ [v']).
Proof.
  intros Hl Hv. apply StronglySorted_app. split_and!; [|done|repeat constructor].
  intros x1 x2 Hx1 Hx2%list_elem_of_singleton. subst x2.
  apply elem_of_app in Hx1 as [Hx1|Hx1%list_elem_of_singleton]; [|by subst x1].
  apply StronglySorted_app in Hl as (Hlt & _).
  specialize (Hlt x1 v Hx1 (list_elem_of_here _ _)). lia.
Qed.

Lemma versions_sorted_step self op :
  StronglySorted Z.lt (list_circuit_versions self) →
  StronglySorted Z.lt (list_circuit_versions (step self op).1).
Proof.
  unfold list_circuit_versions. intros Hs.
  pose proof (version_step self op) as Hv.
  destruct op as [t nodes value parameters|n|l]; unfold step in *; cbn [fst] in *.
  - rewrite add_component_eq in *. cbn [history version fst] in *.
    by apply (sorted_last_grows _ (version self)).
  - unfold remove_component in *.
    destruct (pop_first _ _); cbn [history version fst] in *; [|done].
    by apply (sorted_last_grows _ (version self)).
  - rewrite history_update_components, fmap_app.
    cbn [fmap list_fmap snap_version].
    apply sorted_push; [done|]. rewrite version_update_components. lia.
Qed.

Lemma versions_sorted_run ops self :
  StronglySorted Z.lt (list_circuit_versions self) →
  StronglySorted Z.lt (list_circuit_versions (run self ops).1).
Proof.
  revert self; induction ops as [|op ops IH]; intros self Hs; [done|].
  cbn [run fst]. by apply IH, versions_sorted_step.
Qed.

Lemma id_name_run ops self :
  id (run self ops).1 = id self ∧ name (run self ops).1 = name self.
Proof.
  revert self; induction ops as [|op ops IH]; intros self; [done|].
  cbn [run fst]. destruct (IH (step self op).1) as [-> ->].
  destruct op as [t nodes value parameters|n|l]; unfold step; cbn [fst].
  - by rewrite add_component_eq.
  - unfold remove_component. by destruct (pop_first _ _).
  - unfold update_components, add_all.
    set (cleared := MkCircuit _ _ _ [] _ _).
    change (id self) with (id cleared). change (name self) with (name cleared).
    generalize cleared. induction l as [|comp l IHl]; intros c; [done|].
    cbn [foldl]. destruct (IHl (add_component c (spec_type comp) (spec_nodes comp)
      (spec_value comp) (spec_parameters comp)).1) as [-> ->].
    by rewrite add_component_eq.
Qed.

Lemma find_record_skip (v : Z) (l1 l2 : list snapshot) :
  (∀ r, r ∈ l1 → snap_version r ≠ v) →
  find_record v (l1 ++ l2) = find_record v l2.
Proof.
  induction l1 as [|r l1 IH]; intros Hl1; [done|]. simpl.
  rewrite bool_decide_eq_false_2 by (apply Hl1; by left).
  apply IH. intros r' Hr'. apply Hl1. by right.
Qed.

End Versions.

(** X6. The version list of a circuit (the versions of its history
    records followed by the current version) is strictly increasing,
    whatever sequence of additions, removals and bulk replacements the
    circuit has gone through since it was created. *)
Theorem versions_strictly_increasing
    (circuit_id : Z) (nm : option string) (ops : list operation) :
  StronglySorted Z.lt
    (list_circuit_versions (run (Circuit_init circuit_id nm) ops).1).
Proof. apply versions_sorted_run. repeat constructor. Qed.


(** X8. What [update_components] replaces stays readable: after a bulk
    replacement and any further calls, asking for the version the circuit
    had before the replacement returns the components it had then, under
    that version, with the circuit's id and name. *)
Theorem replaced_version_stays_readable
    (circuit_id : Z) (nm : option string) (before after : list operation)
    (new_components : list component_spec) :
  let self := (run (Circuit_init circuit_id nm) before).1 in
  let self' := (run (update_components self new_components) after).1 in
  get_circuit_version self' (Some (version self))
  = Some (CircuitDict (id self) (name self) (version self) (components self)).
Proof.
  intros self self'.
  assert (StronglySorted Z.lt (list_circuit_versions self)) as Hsorted
    by (apply versions_sorted_run; repeat constructor).
  pose proof (history_update_components self new_components) as Hupd.
  destruct (history_run after (update_components self new_components))
    as [extra Hextra]. fold self' in Hextra.
  pose proof (version_update_components self new_components) as Hvu.
  pose proof (version_run (update_components self new_components) after) as Hva.
  fold self' in Hva.
  destruct (id_name_run after (update_components self new_components)) as [Hid Hname].
  fold self' in Hid, Hname.
  destruct (id_name_run [ReplaceAll new_components] self) as [Hid' Hname'].
  cbn [run step fst] in Hid', Hname'.
  unfold get_circuit_version.
  rewrite bool_decide_eq_false_2 by lia.
  rewrite Hextra, Hupd, <- app_assoc, find_record_skip.
  - cbn. rewrite bool_decide_eq_true_2 by done. cbn.
    by rewrite Hid, Hname, Hid', Hname'.
  - intros r Hr. unfold list_circuit_versions in Hsorted.
    apply StronglySorted_app in Hsorted as (Hlt & _).
    assert (snap_version r < version self); [|lia].
    apply Hlt; [|by left]. by apply list_elem_of_fmap_2.
Qed.

(** ** The registry *)

Section Registry.
Implicit Types (r : registry) (ops : list registry_op).

Lemma id_add_all (l : list component_spec) (self : Circuit) :
  id (add_all self l) = id self.
Proof.
  revert self; induction l as [|comp l IH]; intros self; [done|].
  by rewrite add_all_cons, IH, add_component_eq.
Qed.

Lemma cls_persist r : cls (persist r) = cls r.
Proof. unfold persist. by destruct (path_set r). Qed.

Lemma path_persist r : _persistence_path (persist r) = _persistence_path r.
Proof. unfold persist. by destruct (path_set r). Qed.

Lemma ids_consistent_step r op :
  ids_consistent (cls r) → 1 ≤ _next_id (cls r) →
  ids_consistent (cls (registry_step r op))
  ∧ _next_id (cls r) ≤ _next_id (cls (registry_step r op)).
Proof.
  intros Hids Hpos. destruct op as [nm comps|cid nm comps|cid]; cbn [registry_step].
  - unfold create_circuit. cbv zeta. cbn [fst]. rewrite cls_persist.
    cbn [cls _next_id _circuits].
    set (created := match comps with Some (_ :: _) => _ | _ => _ end).
    split; [|lia]. intros cid circuit. cbn [_circuits _next_id].
    destruct (decide (cid = _next_id (cls r))) as [->|Hne].
    + rewrite lookup_insert_eq. intros [= <-]. split; [|lia].
      subst created. destruct comps as [[|comp comps]|]; [done| |done].
      apply id_add_all.
    + rewrite lookup_insert_ne by done. intros Hc.
      destruct (Hids cid circuit Hc). split; [done|lia].
  - unfold update_circuit, get_circuit.
    destruct (_circuits (cls r) !! cid) as [circuit|] eqn:Hc; cbn [fst]; [|done].
    rewrite cls_persist; cbn [cls _next_id _circuits]. split; [|lia].
    intros cid' circuit'. cbn [_circuits _next_id].
    destruct (decide (cid' = cid)) as [->|Hne].
    + rewrite lookup_insert_eq. intros [= <-].
      destruct (Hids cid circuit Hc) as [Hid Hlt]. split; [|done].
      destruct comps as [l|].
      * destruct (id_name_run [ReplaceAll l]
                    (match nm with Some n => set_name circuit n | None => circuit end))
          as [Hid' _].
        cbn [run step fst] in Hid'. rewrite Hid'. by destruct nm.
      * by destruct nm.
    + rewrite lookup_insert_ne by done. apply Hids.
  - unfold delete_circuit.
    destruct (_circuits (cls r) !! cid) as [circuit|] eqn:Hc; cbn [fst]; [|done].
    rewrite cls_persist; cbn [cls _next_id _circuits]. split; [|lia].
    intros cid' circuit' Hc'. cbn [_circuits _next_id] in *.
    apply lookup_delete_Some in Hc' as [_ Hc'].
    by apply Hids.
Qed.

Lemma ids_consistent_run ops r :
  ids_consistent (cls r) → 1 ≤ _next_id (cls r) →
  ids_consistent (cls (registry_run r ops))
  ∧ _next_id (cls r) ≤ _next_id (cls (registry_run r ops)).
Proof.
  unfold registry_run. revert r; induction ops as [|op ops IH]; intros r Hids Hpos.
  - done.
  - cbn [foldl]. destruct (ids_consistent_step r op Hids Hpos) as [Hids' Hle].
    destruct (IH (registry_step r op) Hids') as [Hfinal Hle']; [lia|].
    split; [done|lia].
Qed.

End Registry.

(** X9. The registry never gives an id twice. After any sequence of
    create, update and delete calls on the empty registry, every stored
    circuit sits under its own id and all ids are below the next id;
    further calls never lower the next id; and a creation stores the new
    circuit under the next id, which was free, leaves every other entry
    alone and moves the next id up by one. *)
Theorem registry_ids_never_reused
    (path : option string) (disk : option persisted) (ops : list registry_op) :
  let r := registry_run (Registry (MkCircuitManager ∅ 1) path disk) ops in
  ids_consistent (cls r)
  ∧ get_circuit r (_next_id (cls r)) = None
  ∧ (∀ ops', _next_id (cls r) ≤ _next_id (cls (registry_run r ops')))
  ∧ ∀ nm comps,
      let r' := create_circuit r nm comps in
      id r'.2 = _next_id (cls r)
      ∧ get_circuit r'.1 (_next_id (cls r)) = Some r'.2
      ∧ (∀ cid, cid ≠ _next_id (cls r) → get_circuit r'.1 cid = get_circuit r cid)
      ∧ _next_id (cls r'.1) = _next_id (cls r) + 1.
Proof.
  intros r.
  destruct (ids_consistent_run ops (Registry (MkCircuitManager ∅ 1) path disk))
    as [Hids Hpos]; [by intros cid c ?| done |]. fold r in Hids, Hpos.
  cbn [cls _next_id] in Hpos.
  split_and!; [done| | |].
  - unfold get_circuit.
    destruct (_circuits (cls r) !! _next_id (cls r)) as [c|] eqn:Hc; [|done].
    destruct (Hids _ _ Hc). lia.
  - intros ops'. apply ids_consistent_run; [done|lia].
  - intros nm comps r'.
    destruct (ids_consistent_step r (RCreate nm comps) Hids) as [Hids' _]; [lia|].
    cbn [registry_step] in Hids'. fold r' in Hids'.
    assert (get_circuit r'.1 (_next_id (cls r)) = Some r'.2) as Hnew.
    { subst r'. unfold get_circuit, create_circuit; cbn [fst snd].
      rewrite cls_persist; cbn [cls _circuits]. apply lookup_insert_eq. }
    split_and!; [|done| |].
    + by destruct (Hids' _ _ Hnew).
    + intros cid Hcid. subst r'. unfold get_circuit, create_circuit; cbn [fst].
      rewrite cls_persist; cbn [cls _circuits]. by apply lookup_insert_ne.
    + subst r'. unfold create_circuit; cbn [fst]. by rewrite cls_persist.
Qed.



(** ** What a reload keeps *)

Section Reload.
Implicit Types (self : Circuit) (l : list component_spec).

Lemma upper_ascii_idemp (a : ascii) :
  PyStr.upper_ascii (PyStr.upper_ascii a) = PyStr.upper_ascii a.
Proof. destruct a as [[] [] [] [] [] [] [] []]; reflexivity. Qed.

Lemma upper_idemp (s : string) : PyStr.upper (PyStr.upper s) = PyStr.upper s.
Proof.
  unfold PyStr.upper. induction s as [|a s IH]; [done|].
  simpl. by rewrite upper_ascii_idemp, IH.
Qed.

Lemma add_component_upper self t nodes value parameters :
  add_component self (PyStr.upper t) nodes value parameters
  = add_component self t nodes value parameters.
Proof. by rewrite !add_component_eq, upper_idemp. Qed.

Lemma add_all_stored l self : add_all self (stored_spec <$> l) = add_all self l.
Proof.
  revert self; induction l as [|comp l IH]; intros self; [done|].
  rewrite fmap_cons, !add_all_cons, IH. cbn [stored_spec spec_type spec_nodes
    spec_value spec_parameters]. by rewrite add_component_upper.
Qed.

Lemma stored_spec_fixed (comps : list component) :
  Forall (λ comp, PyStr.upper (comp_type comp) = comp_type comp) comps →
  stored_spec <$> (spec_of_component <$> comps) = spec_of_component <$> comps.
Proof.
  induction 1 as [|comp comps Hc _ IH]; [done|].
  rewrite !fmap_cons, IH. f_equal. unfold stored_spec, spec_of_component; cbn.
  by rewrite Hc.
Qed.

(** Additions depend on the counters only, not on what the circuit
    already holds. *)
Lemma add_all_same_counters l (c1 c2 : Circuit) :
  _next_ids c1 = _next_ids c2 →
  ∃ news,
    components (add_all c1 l) = components c1 ++ news
    ∧ components (add_all c2 l) = components c2 ++ news
    ∧ _next_ids (add_all c1 l) = _next_ids (add_all c2 l).
Proof.
  revert c1 c2; induction l as [|comp l IH]; intros c1 c2 Hids.
  - exists []. by rewrite !app_nil_r.
  - rewrite !add_all_cons.
    set (r1 := add_component c1 _ _ _ _). set (r2 := add_component c2 _ _ _ _).
    assert (_next_ids r1.1 = _next_ids r2.1 ∧ r1.2 = r2.2
            ∧ components r1.1 = components c1 ++ [r1.2]
            ∧ components r2.1 = components c2 ++ [r2.2]) as (Hids' & Hcomp & H1 & H2).
    { subst r1 r2. rewrite !add_component_eq. unfold next_id. cbn. by rewrite Hids. }
    destruct (IH r1.1 r2.1 Hids') as (news & Hn1 & Hn2 & Hfinal).
    exists (r1.2 :: news). split_and!; [| |done].
    + by rewrite Hn1, H1, <- app_assoc.
    + by rewrite Hn2, H2, <- app_assoc, Hcomp.
Qed.

Lemma name_add_all l self : name (add_all self l) = name self.
Proof.
  revert self; induction l as [|comp l IH]; intros self; [done|].
  by rewrite add_all_cons, IH, add_component_eq.
Qed.

Lemma lookup_reloaded (m : CircuitManager) (cid : Z) :
  _circuits (_load_from_disk (_save_to_disk m)) !! cid
  = (λ c, load_circuit cid (to_dict c)) <$> _circuits m !! cid.
Proof.
  unfold _load_from_disk, _save_to_disk. cbn [_circuits p_circuits].
  rewrite map_lookup_imap, lookup_fmap. by destruct (_circuits m !! cid).
Qed.
End Reload.

(** X11. Saving a registry and loading it back keeps the next id and,
    for every circuit with a non-empty name whose component types are in
    upper case (as [add_component] stores them), the id, the name and the
    type, nodes, value and parameters of every component, in order. The
    loaded circuit has an empty history and its version is the saved
    version plus the number of components. *)
Theorem reload_keeps_content (m : CircuitManager) (cid : Z) (c : Circuit) :
  _circuits m !! cid = Some c →
  PyStr.truthy (name c) = true →
  Forall (λ comp, PyStr.upper (comp_type comp) = comp_type comp) (components c) →
  let m' := _load_from_disk (_save_to_disk m) in
  _next_id m' = _next_id m
  ∧ ∃ c', _circuits m' !! cid = Some c'
          ∧ id c' = cid ∧ name c' = name c
          ∧ spec_of_component <$> components c' = spec_of_component <$> components c
          ∧ version c' = version c + Z.of_nat (length (components c))
          ∧ history c' = [].
Proof.
  intros Hc Hname Htypes m'. split; [done|].
  exists (load_circuit cid (to_dict c)). split.
  { subst m'. by rewrite lookup_reloaded, Hc. }
  unfold load_circuit. cbn [to_dict d_name d_version d_components].
  rewrite id_add_all, name_add_all, version_add_all, history_add_all, length_fmap.
  cbn. rewrite Hname. split_and!; try done.
  set (start := MkCircuit _ _ _ [] _ _).
  destruct (add_all_appends (spec_of_component <$> components c) start)
    as (news & Hcomps & Hspecs & _).
  cbn in Hcomps. rewrite Hcomps, Hspecs. by apply stored_spec_fixed.
Qed.

Lemma reload_keeps_content_witness :
  let c := (remove_component
              (add_all (Circuit_init 1 (Some "rc"%string))
                 [ComponentSpec "r" ["1"; "2"]%string (Some (inject_Z 1000)) None;
                  ComponentSpec "c" ["2"; "0"]%string None None]) "R1").1 in
  let m := MkCircuitManager {[ 1 := c ]} 2 in
  let m' := _load_from_disk (_save_to_disk m) in
  _next_id m' = _next_id m
  ∧ ∃ c', _circuits m' !! 1 = Some c'
          ∧ id c' = 1 ∧ name c' = name c
          ∧ spec_of_component <$> components c' = spec_of_component <$> components c
          ∧ version c' = version c + Z.of_nat (length (components c))
          ∧ history c' = [].
Proof.
  intros c m. apply (reload_keeps_content m 1 c).
  - reflexivity.
  - reflexivity.
  - vm_compute. repeat constructor.
Defined.

(** X12. A circuit that has only been added to since it was created
    (by [create_circuit] with initial components, or by [add_component]
    calls) comes back from a save and a load with the same components,
    names included, the same counters and the same id and name. *)
Theorem reload_of_additions
    (circuit_id : Z) (nm : option string) (l : list component_spec) :
  let c := add_all (Circuit_init circuit_id nm) l in
  let c' := load_circuit circuit_id (to_dict c) in
  components c' = components c
  ∧ _next_ids c' = _next_ids c
  ∧ id c' = id c ∧ name c' = name c.
Proof.
  intros c c'. subst c'. unfold load_circuit.
  cbn [to_dict d_name d_version d_components].
  set (start := MkCircuit _ _ _ _ _ _).
  destruct (add_all_appends l (Circuit_init circuit_id nm))
    as (news & Hcomps & Hspecs & _). fold c in Hcomps. cbn in Hcomps.
  rewrite Hcomps, Hspecs, add_all_stored.
  destruct (add_all_same_counters l start (Circuit_init circuit_id nm) eq_refl)
    as (news' & -> & Hinit & ->). cbn in Hinit. fold c in Hinit.
  rewrite id_add_all, name_add_all. subst c.
  rewrite id_add_all, name_add_all. cbn.
  split_and!; [congruence|done|done|].
  rewrite name_add_all. by destruct nm as [[|a n]|].
Qed.

(** * Further properties of [simulate] *)

Section SimulateMore.
Context (solver : Solver).
Implicit Types (w : world) (analysis : string) (sim_params : option params).

Lemma translate_components_names sofar comps e :
  translate_components (hasattr_model solver) sofar comps = inl e →
  ∃ c rest, c ∈ comps
    ∧ e = ValueError ("Error adding component " +:+ comp_name c +:+ ": " +:+ rest).
Proof.
  revert sofar; induction comps as [|comp comps IH]; intros sofar; simpl; [done|].
  destruct (translate_component _ _ _) as [e'|added].
  - intros [= <-]. exists comp, (exn_str e'). split; [by left|done].
  - intros (c & rest & Hc & ->)%IH. exists c, rest. split; [by right|done].
Qed.

Lemma translate_components_stops sofar comps c :
  c ∈ comps →
  (∀ sofar', ∃ e, translate_component (hasattr_model solver) sofar' c = inl e) →
  ∃ e, translate_components (hasattr_model solver) sofar comps = inl e.
Proof.
  intros Hc Hfail. revert sofar.
  induction comps as [|comp comps IH]; intros sofar; [by apply elem_of_nil in Hc|].
  simpl. apply elem_of_cons in Hc as [<-|Hc].
  - destruct (Hfail sofar) as [e ->]. eauto.
  - destruct (translate_component _ _ _); [eauto|]. by apply IH.
Qed.

(** A component with too few nodes for its type raises on indexing. *)
Lemma translate_component_short sofar (c : component) :
  (comp_type c ∈ ["R"; "C"; "L"; "V"; "I"; "D"]%string
   ∧ (length (comp_nodes c) < 2)%nat)
  ∨ (comp_type c = "Q"%string ∧ (length (comp_nodes c) < 3)%nat) →
  ∃ e, translate_component (hasattr_model solver) sofar c = inl e.
Proof.
  unfold translate_component.
  intros [[Hty Hlen]|[-> Hlen]].
  - repeat (apply elem_of_cons in Hty as [->|Hty]);
      [..|by apply elem_of_nil in Hty];
      repeat (rewrite bool_decide_eq_false_2 by discriminate);
      rewrite bool_decide_eq_true_2 by reflexivity;
      destruct (comp_nodes c) as [|n0 [|n1 rest]]; cbn in Hlen; try lia;
      repeat match goal with
             | |- context [match ?x with _ => _ end] => destruct x
             end; cbn; eauto.
  - repeat (rewrite bool_decide_eq_false_2 by discriminate).
    rewrite bool_decide_eq_true_2 by reflexivity.
    destruct (comp_nodes c) as [|n0 [|n1 [|n2 rest]]]; cbn in Hlen; try lia;
      cbn; eauto.
Qed.

Lemma run_analysis_events simulator kind (ps : params) w :
  let r := run_analysis solver simulator kind ps w in
  self_of r.1 = self_of w
  ∧ ((trace r.1 = trace w ∧ ∃ e, r.2 = inl e)
     ∨ ∃ d, trace r.1 = trace w ++ [RunAnalysis d]).
Proof.
  unfold run_analysis, call_operating_point, call_sweep, mbind, sim_bind,
    emit, raise, mret, sim_ret.
  repeat first
    [ case_bool_decide
    | match goal with
      | |- context [if ?b then _ else _] => destruct b
      | |- context [match run_operating_point ?s ?n with _ => _ end] =>
          destruct (run_operating_point s n)
      | |- context [match run_sweep ?s ?n ?d with _ => _ end] =>
          destruct (run_sweep s n d)
      end ];
    cbn; (split; [done|]); eauto.
Qed.

Lemma lower_ascii_idemp (a : ascii) :
  PyStr.lower_ascii (PyStr.lower_ascii a) = PyStr.lower_ascii a.
Proof. destruct a as [[] [] [] [] [] [] [] []]; reflexivity. Qed.

Lemma lower_idemp (s : string) : PyStr.lower (PyStr.lower s) = PyStr.lower s.
Proof.
  unfold PyStr.lower. induction s as [|a s IH]; [done|].
  simpl. by rewrite lower_ascii_idemp, IH.
Qed.
End SimulateMore.



(** X14. A circuit holding a component of type R, C, L, V, I or D with
    fewer than two nodes, or of type Q with fewer than three, cannot be
    simulated: every [simulate] call raises a [ValueError] naming a
    component of the circuit before any simulator is created or analysis
    run, whatever the analysis kind and parameters. *)
Theorem malformed_component_aborts
    (solver : Solver) (analysis : string) (sim_params : option params)
    (w : world) (c : component) :
  c ∈ components (self_of w) →
  (comp_type c ∈ ["R"; "C"; "L"; "V"; "I"; "D"]%string
   ∧ (length (comp_nodes c) < 2)%nat)
  ∨ (comp_type c = "Q"%string ∧ (length (comp_nodes c) < 3)%nat) →
  ∃ c' rest,
    c' ∈ components (self_of w)
    ∧ simulate solver analysis sim_params w
      = (w, inl (ValueError ("Error adding component " +:+ comp_name c'
                             +:+ ": " +:+ rest))).
Proof.
  intros Hc Hshort. rewrite simulate_eq. unfold build_netlist, mbind, exn_bind.
  destruct (translate_components_stops solver [] (components (self_of w)) c Hc)
    as [e He].
  { intros sofar'. by apply translate_component_short. }
  rewrite He. apply translate_components_names in He as (c' & rest & Hc' & ->).
  eauto.
Qed.

Lemma malformed_component_aborts_witness :
  let c := add_all (Circuit_init 1 None)
             [ComponentSpec "V" ["1"; "0"]%string (Some (inject_Z 5)) None;
              ComponentSpec "Q" ["c"; "b"]%string None None] in
  let w := World c [] in
  ∃ c' rest,
    c' ∈ components (self_of w)
    ∧ simulate echo_solver "operating_point" None w
      = (w, inl (ValueError ("Error adding component " +:+ comp_name c'
                             +:+ ": " +:+ rest))).
Proof.
  intros c w.
  apply (malformed_component_aborts echo_solver "operating_point" None w
           (Component "Q1" "Q" ["c"; "b"]%string None None)).
  - vm_compute. repeat constructor.
  - right. split; [reflexivity | cbn; lia].
Defined.

(** X15. One [simulate] call does at most this to the solver: it
    creates one simulator, from the netlist of the whole circuit, and
    then runs one analysis on it. A call that returns a result has done
    both; no call runs an analysis without a simulator or runs two. *)
Theorem simulate_solver_calls
    (solver : Solver) (analysis : string) (sim_params : option params) (w : world) :
  let r := simulate solver analysis sim_params w in
  (trace r.1 = trace w ∧ ∃ e, r.2 = inl e)
  ∨ ∃ spice_circuit,
      build_netlist (hasattr_model solver) (self_of w) = inr spice_circuit
      ∧ ((trace r.1 = trace w ++ [NewInstance spice_circuit] ∧ ∃ e, r.2 = inl e)
         ∨ ∃ d, trace r.1 = trace w ++ [NewInstance spice_circuit; RunAnalysis d]).
Proof.
  intros r. subst r. rewrite simulate_eq.
  destruct (build_netlist _ _) as [e|spice_circuit]; [left; eauto|].
  right. exists spice_circuit. split; [done|]. unfold reraise.
  pose proof (run_analysis_events solver spice_circuit (PyStr.lower analysis)
                (default ∅ sim_params)
                (World (self_of w) (trace w ++ [NewInstance spice_circuit]))) as Hev.
  cbv zeta in Hev.
  destruct (run_analysis _ _ _ _ _) as [w' [e|res]]; cbn [fst snd trace] in *.
  - destruct Hev as [_ [[-> _]|[d ->]]]; [left; eauto|].
    right. exists d. by rewrite <- app_assoc.
  - destruct Hev as [_ [[_ [e He]]|[d ->]]]; [done|].
    right. exists d. by rewrite <- app_assoc.
Qed.

(** X16. The analysis kind is read without regard to letter case, and
    leaving the parameters out is the same as passing an empty
    dictionary: [simulate] behaves on [analysis] as on its lower-case
    form. *)
Theorem simulate_kind_case_insensitive
    (solver : Solver) (analysis : string) (w : world) :
  simulate solver analysis None w
  = simulate solver (PyStr.lower analysis) (Some ∅) w.
Proof. by rewrite !simulate_eq, lower_idemp. Qed.

(** ** Requests and results *)

Section Results.
Context (solver : Solver).
Implicit Types (w : world) (simulator : netlist) (ps : params).





End Results.







(** ** Components the translation passes over, and UVX components *)

Section Uvx.
Context (hasattr : list instr → pyval → bool).

Lemma translate_opamp sofar (comp : component) (ps : params)
    (out in_n in_p : string) (rest : list string) :
  comp_type comp = "U"%string →
  comp_parameters comp = Some ps →
  ps !! "uvx_type"%string = Some (PStr "opamp") →
  comp_nodes comp = out :: in_n :: in_p :: rest →
  translate_component hasattr sofar comp
  = inr [SpiceR (comp_name comp +:+ "_in_p") (normalize_node in_p)
           (Node ("int_" +:+ comp_name comp +:+ "_1")) (num 1000000000 @ u_Ω);
         SpiceR (comp_name comp +:+ "_in_n") (normalize_node in_n)
           (Node ("int_" +:+ comp_name comp +:+ "_2")) (num 1000000000 @ u_Ω);
         SpiceVCVS (comp_name comp) (normalize_node out) Gnd
           (Node ("int_" +:+ comp_name comp +:+ "_1"))
           (Node ("int_" +:+ comp_name comp +:+ "_2"))
           (default (num 1000000) (ps !! "gain"%string))].
Proof.
  intros Htype Hps Huvx Hnodes. unfold translate_component.
  rewrite Htype, Hps, Hnodes. unfold default, dict_get_default.
  cbn [from_option Datatypes.id]. rewrite Huvx.
  repeat (rewrite bool_decide_eq_false_2 by discriminate).
  rewrite bool_decide_eq_true_2 by reflexivity.
  cbn [py_eq_str]. rewrite bool_decide_eq_true_2 by reflexivity.
  rewrite bool_decide_eq_true_2 by (cbn; lia).
  by destruct (ps !! "gain"%string).
Qed.

Lemma uvx_params_lookup (uvx_type : string) (parameters : option params) (k : string) :
  (match parameters with
   | Some ps => if bool_decide (ps = ∅)
                then ({[ "uvx_type"%string := PStr uvx_type ]} : params)
                else ps ∪ {[ "uvx_type"%string := PStr uvx_type ]}
   | None => {[ "uvx_type"%string := PStr uvx_type ]}
   end) !! k
  = match default ∅ parameters !! k with
    | Some v => Some v
    | None => if bool_decide (k = "uvx_type"%string) then Some (PStr uvx_type)
              else None
    end.
Proof.
  assert (({[ "uvx_type"%string := PStr uvx_type ]} : params) !! k
          = if bool_decide (k = "uvx_type"%string) then Some (PStr uvx_type)
            else None) as Hsingle.
  { case_bool_decide as Hk; [subst k; apply lookup_singleton_eq|].
    by apply lookup_singleton_ne. }
  destruct parameters as [ps|]; cbn [default from_option Datatypes.id].
  - destruct (decide (ps = ∅)) as [->|Hps].
    + by rewrite bool_decide_eq_true_2, lookup_empty.
    + rewrite (bool_decide_eq_false_2 _ Hps), lookup_union, Hsingle.
      destruct (ps !! k) as [v|]; by case_bool_decide.
  - by rewrite lookup_empty.
Qed.
End Uvx.

(** X20. The translation passes over some components without a word:
    a component whose type is none of R, C, L, V, I, D, Q, U, a U
    component whose [uvx_type] is none of opamp, comparator, adc, dac,
    and an op-amp (a U component with [uvx_type] "opamp" or with none)
    that has fewer than three nodes each add no call to the netlist and
    raise no error. *)
Theorem untranslated_components
    (hasattr : list instr → pyval → bool) (sofar : list instr) (c : component) :
  let uvx_type :=
    dict_get_default (default ∅ (comp_parameters c)) "uvx_type" (PStr "opamp") in
  comp_type c ∉ ["R"; "C"; "L"; "V"; "I"; "D"; "Q"; "U"]%string
  ∨ (comp_type c = "U"%string
     ∧ Forall (λ known, py_eq_str uvx_type known = false)
         ["opamp"; "comparator"; "adc"; "dac"]%string)
  ∨ (comp_type c = "U"%string ∧ py_eq_str uvx_type "opamp" = true
     ∧ (length (comp_nodes c) < 3)%nat) →
  translate_component hasattr sofar c = inr [].
Proof.
  intros uvx_type. unfold translate_component. fold uvx_type.
  intros [Hty|[[-> Hu]|(-> & Hu & Hlen)]].
  - repeat (rewrite bool_decide_eq_false_2;
            [|intros Heq; apply Hty; rewrite Heq; repeat constructor]).
    done.
  - repeat (rewrite bool_decide_eq_false_2 by discriminate).
    rewrite bool_decide_eq_true_2 by reflexivity.
    repeat (apply Forall_cons in Hu as [-> Hu]). done.
  - repeat (rewrite bool_decide_eq_false_2 by discriminate).
    rewrite bool_decide_eq_true_2 by reflexivity. rewrite Hu.
    rewrite bool_decide_eq_false_2; [done|]. rewrite length_fmap. lia.
Qed.

Lemma untranslated_components_witness :
  translate_component (λ _ _, false) []
    (Component "U1" "U" ["out"; "in"]%string None None) = inr []
  ∧ translate_component (λ _ _, false) []
      (Component "M1" "M" ["d"; "g"; "s"]%string None None) = inr [].
Proof.
  split.
  - apply (untranslated_components (λ _ _, false) []
             (Component "U1" "U" ["out"; "in"]%string None None)).
    right; right. split_and!; [reflexivity|reflexivity|cbn; lia].
  - apply (untranslated_components (λ _ _, false) []
             (Component "M1" "M" ["d"; "g"; "s"]%string None None)).
    left. vm_compute. intros H. repeat (inversion H as [|? ? ? H']; clear H; rename H' into H).
Defined.

(** X21. [add_uvx_component] always adds a component of type U with no
    value, named U followed by the counter of U. Its parameters are the
    given ones, with [uvx_type] set to the argument only when the given
    parameters have no [uvx_type] of their own: a [uvx_type] key in
    [parameters] overrides the [uvx_type] argument. *)
Theorem add_uvx_component_parameters
    (circuit : Circuit) (nodes : list string) (uvx_type : string)
    (parameters : option params) :
  let r := add_uvx_component circuit nodes uvx_type parameters in
  ∃ ps,
    r.2 = Component ("U" +:+ PyStr.str (next_id circuit "U")) "U" nodes None (Some ps)
    ∧ components r.1 = components circuit ++ [r.2]
    ∧ ∀ k, ps !! k =
           match default ∅ parameters !! k with
           | Some v => Some v
           | None => if bool_decide (k = "uvx_type"%string)
                     then Some (PStr uvx_type) else None
           end.
Proof.
  intros r. subst r. unfold add_uvx_component. rewrite add_component_eq.
  cbv zeta. cbn [fst snd components].
  eexists. split_and!; [reflexivity|reflexivity|].
  intros k. apply uvx_params_lookup.
Qed.

(** X22. An op-amp added through [add_uvx_component] with nodes out,
    in-, in+ (and any further ones) and parameters without a [uvx_type]
    of their own is translated into the two 1e9 ohm input resistors and
    the voltage-controlled source of the op-amp model, named after the
    component, with the gain given in the parameters or 1e6. *)
Theorem added_opamp_translates
    (hasattr : list instr → pyval → bool) (sofar : list instr)
    (circuit : Circuit) (out in_n in_p : string) (rest : list string)
    (parameters : option params) :
  default ∅ parameters !! "uvx_type"%string = None →
  let r := add_uvx_component circuit (out :: in_n :: in_p :: rest) "opamp" parameters in
  let U := ("U" +:+ PyStr.str (next_id circuit "U"))%string in
  comp_name r.2 = U
  ∧ translate_component hasattr sofar r.2
    = inr [SpiceR (U +:+ "_in_p") (normalize_node in_p)
             (Node ("int_" +:+ U +:+ "_1")) (num 1000000000 @ u_Ω);
           SpiceR (U +:+ "_in_n") (normalize_node in_n)
             (Node ("int_" +:+ U +:+ "_2")) (num 1000000000 @ u_Ω);
           SpiceVCVS U (normalize_node out) Gnd
             (Node ("int_" +:+ U +:+ "_1")) (Node ("int_" +:+ U +:+ "_2"))
             (default (num 1000000) (default ∅ parameters !! "gain"%string))].
Proof.
  intros Hnone r U. subst r. unfold add_uvx_component.
  rewrite add_component_eq. cbv zeta. cbn [snd comp_name]. split; [done|].
  erewrite translate_opamp; [|reflexivity|reflexivity| |reflexivity].
  - cbn [comp_name]. fold U. rewrite (uvx_params_lookup "opamp" parameters "gain").
    destruct (default ∅ parameters !! "gain"%string); [done|].
    by rewrite bool_decide_eq_false_2.
  - rewrite (uvx_params_lookup "opamp" parameters "uvx_type"), Hnone.
    by rewrite bool_decide_eq_true_2.
Qed.

Lemma added_opamp_translates_witness :
  let parameters : option params := Some {[ "gain"%string := num 200000 ]} in
  let r := add_uvx_component (Circuit_init 1 None) ["out"; "in-"; "in+"]%string
             "opamp" parameters in
  comp_name r.2 = "U1"%string
  ∧ translate_component (λ _ _, false) [] r.2
    = inr [SpiceR "U1_in_p" (Node "in+") (Node "int_U1_1") (num 1000000000 @ u_Ω);
           SpiceR "U1_in_n" (Node "in-") (Node "int_U1_2") (num 1000000000 @ u_Ω);
           SpiceVCVS "U1" (Node "out") Gnd (Node "int_U1_1") (Node "int_U1_2")
             (num 200000)].
Proof.
  intros parameters.
  exact (added_opamp_translates (λ _ _, false) [] (Circuit_init 1 None)
           "out" "in-" "in+" [] parameters eq_refl).
Defined.

(** * The schematic *)

Section Schematic.
Implicit Types (p : placement) (comps : list component) (comp : component).

Lemma after_last_dot_ext (stem ext : string) :
  after_last_dot ext = None →
  after_last_dot (stem +:+ String "."%char ext) = Some ext.
Proof.
  intros Hext. induction stem as [|a stem IH].
  - rewrite str_app_nil_l. simpl. by rewrite Hext.
  - rewrite str_app_cons. simpl. by rewrite IH.
Qed.

Lemma place_keeps n p m pos :
  node_positions p !! m = Some pos → node_positions (place n p) !! m = Some pos.
Proof.
  intros Hm. unfold place. destruct (node_positions p !! n) eqn:Hn; [done|].
  cbn. rewrite lookup_insert_ne; [done|]. intros ->. congruence.
Qed.

Lemma place_in n p : is_Some (node_positions (place n p) !! n).
Proof.
  unfold place. destruct (node_positions p !! n) eqn:Hn; [by rewrite Hn|].
  cbn. rewrite lookup_insert_eq. by eexists.
Qed.

Lemma place_component_keeps comp p m pos :
  node_positions p !! m = Some pos →
  node_positions (place_component p comp) !! m = Some pos.
Proof.
  intros Hm. unfold place_component.
  destruct (drawable _); [|done]. destruct (comp_nodes comp) as [|n1 [|n2 rest]];
    [done|done|]. by do 2 apply place_keeps.
Qed.

Lemma foldl_place_keeps comps p m pos :
  node_positions p !! m = Some pos →
  node_positions (foldl place_component p comps) !! m = Some pos.
Proof.
  revert p; induction comps as [|comp comps IH]; intros p Hm; [done|].
  cbn [foldl]. by apply IH, place_component_keeps.
Qed.

Lemma first_pass_covers comps p comp n1 n2 rest :
  comp ∈ comps → is_Some (drawable (comp_type comp)) →
  comp_nodes comp = n1 :: n2 :: rest →
  is_Some (node_positions (foldl place_component p comps) !! n1)
  ∧ is_Some (node_positions (foldl place_component p comps) !! n2).
Proof.
  intros Hin [elem Hd] Hnodes. revert p.
  induction comps as [|c comps IH]; intros p; [by apply elem_of_nil in Hin|].
  cbn [foldl]. apply elem_of_cons in Hin as [<-|Hin]; [|by apply IH].
  assert (is_Some (node_positions (place_component p comp) !! n1)
          ∧ is_Some (node_positions (place_component p comp) !! n2)) as [[p1 H1] [p2 H2]].
  { unfold place_component. rewrite Hd, Hnodes. split; [|apply place_in].
    destruct (place_in n1 p) as [pos Hpos]. exists pos. by apply place_keeps. }
  split; eexists; by apply foldl_place_keeps.
Qed.

Lemma well_placed_place n p : well_placed p → well_placed (place n p).
Proof.
  intros (Hy & Hx & Hg & Hline & Hinj). unfold place.
  destruct (node_positions p !! n) eqn:Hn; [done|].
  assert (n ≠ "0"%string) as Hn0.
  { intros Heq. rewrite Heq, Hg in Hn. discriminate Hn. }
  split_and!; cbn [node_positions next_pos fst snd]; [done|lia| | |].
  - by rewrite lookup_insert_ne.
  - intros m pos. destruct (decide (m = n)) as [->|Hm].
    + rewrite lookup_insert_eq. intros [= <-] _. lia.
    + rewrite lookup_insert_ne by done. intros Hpos Hm0.
      destruct (Hline m pos Hpos Hm0). lia.
  - assert (∀ m, node_positions p !! m = Some (next_pos p) → False) as Hfresh.
    { intros m Hm. destruct (decide (m = "0"%string)) as [->|Hm0].
      - rewrite Hg in Hm. injection Hm as Hm. rewrite <- Hm in Hy. cbn in Hy. lia.
      - destruct (Hline m _ Hm Hm0). lia. }
    intros n1 n2 pos.
    destruct (decide (n1 = n)) as [->|H1], (decide (n2 = n)) as [->|H2];
      rewrite ?lookup_insert_eq, ?lookup_insert_ne by done; try done.
    + intros [= <-] H2'. by destruct (Hfresh n2).
    + intros H1' [= <-]. by destruct (Hfresh n1).
    + apply Hinj.
Qed.

Lemma well_placed_foldl comps p :
  well_placed p → well_placed (foldl place_component p comps).
Proof.
  revert p; induction comps as [|comp comps IH]; intros p Hp; [done|].
  cbn [foldl]. apply IH. unfold place_component.
  destruct (drawable _); [|done].
  destruct (comp_nodes comp) as [|n1 [|n2 rest]]; [done|done|].
  by do 2 apply well_placed_place.
Qed.

Lemma well_placed_first_pass comps : well_placed (first_pass comps).
Proof.
  apply well_placed_foldl. split_and!; cbn; try done.
  - intros n pos [<- <-]%lookup_singleton_Some. done.
  - intros n1 n2 pos [<- _]%lookup_singleton_Some [<- _]%lookup_singleton_Some.
    done.
Qed.

Lemma element_labels_node_dot node pos : element_labels (node_dot node pos) = [].
Proof. unfold node_dot. by destruct (_ && _). Qed.

Lemma element_labels_app l1 l2 :
  element_labels (l1 ++ l2) = element_labels l1 ++ element_labels l2.
Proof. apply omap_app. Qed.

Lemma element_labels_component (np : gmap string position) comp :
  (∀ n1 n2 rest, is_Some (drawable (comp_type comp)) →
     comp_nodes comp = n1 :: n2 :: rest → is_Some (np !! n1) ∧ is_Some (np !! n2)) →
  element_labels (draw_component np comp)
  = if shown comp then [comp_name comp] else [].
Proof.
  intros Hcov. unfold draw_component, shown.
  destruct (drawable (comp_type comp)) as [elem|]; [|done].
  destruct (comp_nodes comp) as [|n1 [|n2 rest]]; [done|done|].
  destruct (Hcov n1 n2 rest) as [[pos1 ->] [pos2 ->]]; [by eexists|done|].
  cbn. by rewrite element_labels_app, !element_labels_node_dot.
Qed.

Lemma element_labels_components (np : gmap string position) comps :
  (∀ comp n1 n2 rest, comp ∈ comps → is_Some (drawable (comp_type comp)) →
     comp_nodes comp = n1 :: n2 :: rest → is_Some (np !! n1) ∧ is_Some (np !! n2)) →
  element_labels (concat (draw_component np <$> comps))
  = comp_name <$> filter shown comps.
Proof.
  induction comps as [|comp comps IH]; intros Hcov; [done|].
  rewrite fmap_cons. cbn [concat]. rewrite element_labels_app, IH.
  - rewrite element_labels_component.
    + rewrite filter_cons. destruct (decide (shown comp)) as [Hs|Hs].
      * apply Is_true_true_1 in Hs. by rewrite Hs.
      * apply Is_true_false_1 in Hs. by rewrite Hs.
    + intros n1 n2 rest. apply Hcov. by left.
  - intros c n1 n2 rest Hc. apply Hcov. by right.
Qed.
End Schematic.

(** X23. [draw_schematic] takes the format from what follows the last
    dot of the file path, in any letter case. For a path [stem.ext] it
    draws and saves under that path when [ext] is png, svg or pdf, and
    otherwise raises a [ValueError] naming the lower-cased extension,
    without drawing anything. *)
Theorem draw_schematic_format (self : Circuit) (stem ext : string) :
  after_last_dot ext = None →
  let filepath := stem +:+ String "."%char ext in
  if bool_decide (PyStr.lower ext ∈ ["png"; "svg"; "pdf"]%string)
  then ∃ calls, draw_schematic self filepath = inr (calls ++ [Save filepath])
  else draw_schematic self filepath
       = inl (ValueError ("Unsupported format: " +:+ PyStr.lower ext
                          +:+ ". Use png, svg, or pdf.")).
Proof.
  intros Hext filepath. unfold draw_schematic, last_segment. subst filepath.
  rewrite after_last_dot_ext by done. cbn [default from_option Datatypes.id].
  destruct (decide (PyStr.lower ext ∈ ["png"; "svg"; "pdf"]%string)) as [Hin|Hin].
  - rewrite (bool_decide_eq_true_2 _ Hin), bool_decide_eq_false_2 by (by intros Hn).
    eexists. by rewrite app_assoc.
  - by rewrite (bool_decide_eq_false_2 _ Hin), bool_decide_eq_true_2.
Qed.

Lemma draw_schematic_format_witness :
  draw_schematic (Circuit_init 1 None) "schematics/circuit_1_v1.jpeg"
  = inl (ValueError "Unsupported format: jpeg. Use png, svg, or pdf.").
Proof.
  exact (draw_schematic_format (Circuit_init 1 None) "schematics/circuit_1_v1" "jpeg"
           eq_refl).
Defined.

(** X24. In the first pass of [draw_schematic] ground "0" stays at the
    origin, every other node is put on the line y = 2 at an even
    abscissa from 0 upwards, and no two node names share a position. *)
Theorem schematic_positions_distinct (comps : list component) :
  let np := node_positions (first_pass comps) in
  np !! "0"%string = Some (0, 0)
  ∧ (∀ n pos, np !! n = Some pos → n ≠ "0"%string → pos.2 = 2 ∧ 0 ≤ pos.1)
  ∧ ∀ n1 n2 pos, np !! n1 = Some pos → np !! n2 = Some pos → n1 = n2.
Proof.
  intros np. destruct (well_placed_first_pass comps) as (_ & _ & Hg & Hline & Hinj).
  split_and!; [done| |done].
  intros n pos Hpos Hn. destruct (Hline n pos Hpos Hn). lia.
Qed.

Lemma schematic_positions_distinct_witness :
  let comps := [Component "V1" "V" ["in"; "0"]%string None None;
                Component "R1" "R" ["in"; "out"]%string None None;
                Component "C1" "C" ["out"; "gnd"]%string None None] in
  let np := node_positions (first_pass comps) in
  np !! "gnd"%string = Some (4, 2)
  ∧ ("gnd" : string) ≠ "0"%string
  ∧ ((4, 2) : position).2 = 2 ∧ 0 ≤ ((4, 2) : position).1.
Proof.
  intros comps np.
  assert (np !! "gnd"%string = Some (4, 2)) as Hgnd by (vm_compute; reflexivity).
  assert (("gnd" : string) ≠ "0"%string) as Hne by discriminate.
  split_and!; [exact Hgnd | exact Hne | |];
    apply (proj1 (proj2 (schematic_positions_distinct comps)) "gnd"%string (4, 2)
             Hgnd Hne).
Defined.

(** X25. A schematic that is drawn shows every component that has a
    drawable type (R, C, L, V, I, D, Q) and at least two nodes, exactly
    once, labelled with its name, in the order of the component list;
    components of type U or of an unknown type and components with fewer
    than two nodes are not shown. The drawing ends with the ground symbol
    at the origin and the save. *)
Theorem schematic_shows_components
    (self : Circuit) (filepath : string) (calls : list drawing_call) :
  draw_schematic self filepath = inr calls →
  element_labels calls = comp_name <$> filter shown (components self)
  ∧ ∃ body, calls = body ++ [AddGround (0, 0); Save filepath].
Proof.
  unfold draw_schematic. case_bool_decide as Hfmt; [done|]. intros [= <-].
  destruct (well_placed_first_pass (components self)) as (_ & _ & Hg & _).
  rewrite Hg. split.
  - rewrite element_labels_app, element_labels_components.
    + cbn. by rewrite app_nil_r.
    + intros comp n1 n2 rest. apply first_pass_covers.
  - by eexists.
Qed.

Lemma schematic_shows_components_witness :
  let c := add_all (Circuit_init 1 None)
             [ComponentSpec "V" ["in"; "0"]%string None None;
              ComponentSpec "U" ["out"; "a"; "b"]%string None None;
              ComponentSpec "R" ["in"; "out"]%string None None;
              ComponentSpec "R" ["x"]%string None None] in
  let calls := match draw_schematic c "rc.SVG" with inr l => l | inl _ => [] end in
  element_labels calls = comp_name <$> filter shown (components c)
  ∧ ∃ body, calls = body ++ [AddGround (0, 0); Save "rc.SVG"].
Proof.
  intros c calls. apply (schematic_shows_components c "rc.SVG" calls).
  vm_compute. reflexivity.
Defined.

(** * Plain netlists and renaming *)

Section Passive.
Context (hasattr : list instr → pyval → bool).


End Passive.



(** X27. [update_circuit] with an unknown id returns [None] and changes
    nothing. With a known id and a name but no components it only
    renames: the stored circuit gets the name as given, even an empty
    one, and keeps its id, version, components, history and counters. A
    circuit renamed to the empty string is loaded back from a save under
    the default name "Circuit " followed by its id. *)
Theorem update_circuit_rename (r : registry) (cid : Z) (n : string) :
  match get_circuit r cid with
  | None => ∀ nm comps, update_circuit r cid nm comps = (r, None)
  | Some circuit =>
      let r' := update_circuit r cid (Some n) None in
      let renamed := MkCircuit (id circuit) n (version circuit) (components circuit)
                       (history circuit) (_next_ids circuit) in
      r'.2 = Some renamed
      ∧ get_circuit r'.1 cid = Some renamed
      ∧ (∀ cid', cid' ≠ cid → get_circuit r'.1 cid' = get_circuit r cid')
      ∧ name (load_circuit cid (to_dict (set_name circuit EmptyString)))
        = ("Circuit " +:+ PyStr.str cid)%string
  end.
Proof.
  destruct (get_circuit r cid) as [circuit|] eqn:Hc.
  - intros r' renamed. subst r'. unfold update_circuit. rewrite Hc. cbn [fst snd].
    unfold get_circuit. rewrite cls_persist. cbn [cls _circuits].
    split_and!; [done|apply lookup_insert_eq| |].
    + intros cid' Hne. by rewrite lookup_insert_ne.
    + unfold load_circuit. by rewrite name_add_all.
  - intros nm comps. unfold update_circuit. by rewrite Hc.
Qed.
